(** * parldl: the single-resource fetcher and the fetch orchestrator

    A shallow embedding of [src/parldl/__main__.py]:
    - [download_image] (lines 14-41), with the two library functions it
      calls before its [try] block, [urllib.parse.urlparse] and
      [pathlib.Path.name];
    - [_download_images] (lines 45-106), the dispatch-and-drain loop.

    Python [int] is [Z]; Python [str] is [string] (characters are code
    points below 256); a raised exception is a value of [PyExc]; code that
    may raise returns a [result]. *)

From Stdlib Require Import ZArith Ascii String DecimalString Lia.
From stdpp Require Import base option list strings gmap.

Local Open Scope Z_scope.
Local Open Scope string_scope.

#[local] Set Warnings "-clear-no-such-hyp".

(** ** Exceptions and results *)

(** A raised exception: its class name and [str(e)]. Every exception
    modelled here is a subclass of [Exception]. *)
Record PyExc := mkExc { exc_class : string; exc_str : string }.

Inductive result (A : Type) : Type :=
| Ret (a : A)
| Raise (e : PyExc).
Arguments Ret {A} a.
Arguments Raise {A} e.

Definition bind {A B} (r : result A) (k : A -> result B) : result B :=
  match r with
  | Ret a => k a
  | Raise e => Raise e
  end.

Notation "'try!' x <- r ; k" := (bind r (fun x => k))
  (at level 10, x name, r at level 100, k at level 200).

Definition ValueError (msg : string) : PyExc := mkExc "ValueError" msg.
Definition KeyError (msg : string) : PyExc := mkExc "KeyError" msg.
Definition AttributeError (msg : string) : PyExc := mkExc "AttributeError" msg.

(** ** String operations of Python used by the program *)

Module Str.

(** [c in s] *)
Fixpoint contains (c : ascii) (s : string) : bool :=
  match s with
  | EmptyString => false
  | String a r => if Ascii.eqb a c then true else contains c r
  end.

(** [s.startswith(p)] *)
Fixpoint startswith (p s : string) : bool :=
  match p with
  | EmptyString => true
  | String a p' =>
      match s with
      | EmptyString => false
      | String b s' => if Ascii.eqb a b then startswith p' s' else false
      end
  end.

Definition is_empty (s : string) : bool :=
  match s with EmptyString => true | _ => false end.

(** The part of [s] before the first character satisfying [p], and the
    rest, which is empty or starts with that character. *)
Fixpoint break (p : ascii -> bool) (s : string) : string * string :=
  match s with
  | EmptyString => (EmptyString, EmptyString)
  | String a r =>
      if p a then (EmptyString, s)
      else let '(x, y) := break p r in (String a x, y)
  end.

Definition tail (s : string) : string :=
  match s with EmptyString => EmptyString | String _ r => r end.

(** [s.partition(c)]: (before, found, after). *)
Definition partition (c : ascii) (s : string) : string * bool * string :=
  let '(x, y) := break (Ascii.eqb c) s in
  match y with
  | EmptyString => (x, false, EmptyString)
  | String _ r => (x, true, r)
  end.

(** [s.rpartition(c)[2]]: what follows the last [c], or all of [s]. *)
Fixpoint after_last (c : ascii) (s : string) : string :=
  match s with
  | EmptyString => EmptyString
  | String a r =>
      if contains c r then after_last c r
      else if Ascii.eqb a c then r else s
  end.

(** [s.split(c)] *)
Fixpoint split (c : ascii) (s : string) : list string :=
  match s with
  | EmptyString => [EmptyString]
  | String a r =>
      if Ascii.eqb a c then EmptyString :: split c r
      else match split c r with
           | x :: l => String a x :: l
           | [] => [String a EmptyString]
           end
  end.

Fixpoint filter (p : ascii -> bool) (s : string) : string :=
  match s with
  | EmptyString => EmptyString
  | String a r => if p a then String a (filter p r) else filter p r
  end.

Fixpoint dropwhile (p : ascii -> bool) (s : string) : string :=
  match s with
  | EmptyString => EmptyString
  | String a r => if p a then dropwhile p r else s
  end.

Fixpoint forallb (p : ascii -> bool) (s : string) : bool :=
  match s with
  | EmptyString => true
  | String a r => p a && forallb p r
  end.

Fixpoint map (f : ascii -> ascii) (s : string) : string :=
  match s with
  | EmptyString => EmptyString
  | String a r => String (f a) (map f r)
  end.

Definition code (a : ascii) : N := N_of_ascii a.

Definition is_upper (a : ascii) : bool := ((65 <=? code a) && (code a <=? 90))%N.
Definition is_lower (a : ascii) : bool := ((97 <=? code a) && (code a <=? 122))%N.
Definition is_digit (a : ascii) : bool := ((48 <=? code a) && (code a <=? 57))%N.
Definition is_ascii (a : ascii) : bool := (code a <? 128)%N.

Definition lower_char (a : ascii) : ascii :=
  if is_upper a then ascii_of_N (code a + 32) else a.

(** [s.lower()] on ASCII letters. *)
Definition lower (s : string) : string := map lower_char s.

(** [str(n)] and [f"{n}"] for an [int]. *)
Definition of_Z (n : Z) : string := NilZero.string_of_int (Z.to_int n).

End Str.

(** ** Library functions called by [download_image]

    [urllib.parse.urlparse] and [pathlib.PurePosixPath.name] belong to the
    Python standard library (CPython 3.11). They are modelled after the
    library's code, since [download_image] calls them outside its [try]
    block and builds the file name from their results. Two checks of the
    library are left as parameters: [_check_bracketed_host] (validation of
    an IP literal, module [ipaddress]) and the NFKC test of [_checknetloc]
    (module [unicodedata]). *)

Record UrlChecks := {
  (** [_check_bracketed_host(hostname)]: [Some msg] when it raises
      [ValueError(msg)] *)
  check_bracketed_host : string -> option string;
  (** the part of [_checknetloc] reached when the netloc is not ASCII *)
  check_nfkc : string -> option string
}.

Record ParseResult := {
  scheme : string;
  netloc : string;
  path : string;
  params : string;
  query : string;
  fragment : string
}.

Module Url.

Definition ch (n : N) : ascii := ascii_of_N n.
Definition colon := ch 58.
Definition slash := ch 47.
Definition hash := ch 35.
Definition qmark := ch 63.
Definition semi := ch 59.
Definition at_sign := ch 64.
Definition lbracket := ch 91.
Definition rbracket := ch 93.
Definition dot := ch 46.

(** [_WHATWG_C0_CONTROL_OR_SPACE]: the characters 0x00 .. 0x20 *)
Definition c0_control_or_space (a : ascii) : bool := (Str.code a <=? 32)%N.

(** [_UNSAFE_URL_BYTES_TO_REMOVE]: tab, carriage return, line feed *)
Definition unsafe_byte (a : ascii) : bool :=
  ((Str.code a =? 9) || (Str.code a =? 13) || (Str.code a =? 10))%N.

(** [scheme_chars] *)
Definition scheme_char (a : ascii) : bool :=
  Str.is_lower a || Str.is_upper a || Str.is_digit a
  || ((Str.code a =? 43) || (Str.code a =? 45) || (Str.code a =? 46))%N.

Definition uses_params : list string :=
  [""; "ftp"; "hdl"; "prospero"; "http"; "imap"; "https"; "shttp"; "rtsp";
   "rtspu"; "sip"; "sips"; "mms"; "sftp"; "tel"].

(** The scheme test of [urlsplit]: [i = url.find(':')], [i > 0], the first
    character an ASCII letter, every character of [url[:i]] in
    [scheme_chars]. *)
Definition split_scheme (url : string) : string * string :=
  match Str.partition colon url with
  | (before, true, after) =>
      match before with
      | EmptyString => (EmptyString, url)
      | String a _ =>
          if (Str.is_lower a || Str.is_upper a) && Str.forallb scheme_char before
          then (Str.lower before, after)
          else (EmptyString, url)
      end
  | _ => (EmptyString, url)
  end.

Definition is_netloc_delim (a : ascii) : bool :=
  Ascii.eqb a slash || Ascii.eqb a qmark || Ascii.eqb a hash.

(** [_splitnetloc(url, 2)] *)
Definition splitnetloc (url : string) : string * string :=
  Str.break is_netloc_delim (Str.tail (Str.tail url)).

(** [_check_bracketed_netloc] *)
Definition check_bracketed_netloc (lib : UrlChecks) (nl : string) : result unit :=
  let hostname_and_port := Str.after_last at_sign nl in
  let '(before_bracket, have_open_br, bracketed) :=
    Str.partition lbracket hostname_and_port in
  let checked hostname :=
    match check_bracketed_host lib hostname with
    | Some msg => Raise (ValueError msg)
    | None => Ret tt
    end in
  if have_open_br then
    if negb (Str.is_empty before_bracket) then Raise (ValueError "Invalid IPv6 URL")
    else
      let '(hostname, _, port) := Str.partition rbracket bracketed in
      if negb (Str.is_empty port) && negb (Str.startswith ":" port)
      then Raise (ValueError "Invalid IPv6 URL")
      else checked hostname
  else
    let '(hostname, _, _) := Str.partition colon hostname_and_port in
    checked hostname.

(** [_checknetloc] *)
Definition checknetloc (lib : UrlChecks) (nl : string) : result unit :=
  if Str.is_empty nl || Str.forallb Str.is_ascii nl then Ret tt
  else match check_nfkc lib nl with
       | Some msg => Raise (ValueError msg)
       | None => Ret tt
       end.

(** [urlsplit(url)]: (scheme, netloc, path, query, fragment) *)
Definition urlsplit (lib : UrlChecks) (url : string)
  : result (string * string * string * string * string) :=
  let url := Str.dropwhile c0_control_or_space url in
  let url := Str.filter (fun a => negb (unsafe_byte a)) url in
  let '(sch, url) := split_scheme url in
  try! nl_url <-
    (if Str.startswith "//" url then
       let '(nl, rest) := splitnetloc url in
       if (Str.contains lbracket nl && negb (Str.contains rbracket nl))
          || (Str.contains rbracket nl && negb (Str.contains lbracket nl))
       then Raise (ValueError "Invalid IPv6 URL")
       else if Str.contains lbracket nl && Str.contains rbracket nl
       then try! _ <- check_bracketed_netloc lib nl; Ret (nl, rest)
       else Ret (nl, rest)
     else Ret (EmptyString, url));
  let '(nl, url) := nl_url in
  let '(url, _, frag) := Str.partition hash url in
  let '(url, _, qry) := Str.partition qmark url in
  try! _ <- checknetloc lib nl;
  Ret (sch, nl, url, qry, frag).

(** [_splitparams]: the parameters follow the first [;] of the last path
    segment. *)
Fixpoint splitparams (url : string) : string * string :=
  match url with
  | EmptyString => (EmptyString, EmptyString)
  | String a r =>
      if Str.contains slash r then
        let '(x, y) := splitparams r in (String a x, y)
      else if Str.contains slash url then
        (* [a] is the last slash: [url.find(';', url.rfind('/'))] *)
        let '(x, found, y) := Str.partition semi r in (String a x, y)
      else
        let '(x, found, y) := Str.partition semi url in (x, y)
  end.

(** [urlparse(url)] *)
Definition urlparse (lib : UrlChecks) (url : string) : result ParseResult :=
  try! parts <- urlsplit lib url;
  let '(sch, nl, url, qry, frag) := parts in
  let '(url, prm) :=
    if bool_decide (sch ∈ uses_params) && Str.contains semi url
    then splitparams url else (url, EmptyString) in
  Ret {| scheme := sch; netloc := nl; path := url; params := prm;
         query := qry; fragment := frag |}.

(** The [hostname] attribute of a parse result ([_hostinfo]): the netloc
    without user information and port, lower-cased up to a zone
    identifier; [None] when it is empty. *)
Definition hostname (r : ParseResult) : option string :=
  let hostinfo := Str.after_last at_sign (netloc r) in
  let '(_, have_open_br, bracketed) := Str.partition lbracket hostinfo in
  let host :=
    if have_open_br then
      let '(h, _, _) := Str.partition rbracket bracketed in h
    else
      let '(h, _, _) := Str.partition colon hostinfo in h in
  if Str.is_empty host then None
  else
    let '(h, pct, zone) := Str.partition (ch 37) host in
    Some (Str.lower h ++ (if pct then "%" else "") ++ zone).

End Url.

(** [PurePosixPath(p).name]: the last component of [p], where empty
    components and [.] are dropped when the path is parsed; empty when
    there is none. *)
Definition path_name (p : string) : string :=
  List.last (List.filter (fun x => negb (Str.is_empty x) && negb (String.eqb x "."))
                         (Str.split Url.slash p))
            EmptyString.

(** ** The single-resource fetcher: [download_image] *)

(** [output_dir / filename] *)
Record FilePath := { parent : string; name : string }.

(** What [requests.get(url, timeout=30)] does: a completed exchange, or an
    exception. *)
Inductive Reply :=
| Responded (status_code : Z) (content : string)
| GetRaised (e : PyExc).

(** The outside world of one call of [download_image]. *)
Record World := {
  requests_get : string -> Reply;
  (** [filepath.write_bytes(content)]: the exception it raises, if any *)
  write_bytes : FilePath -> string -> option PyExc
}.

(** The outcome of one call: what it returns or raises, and the files it
    has written. *)
Record Fetch := {
  returned : result (bool * option string);
  written : list (FilePath * string)
}.

(** [download_image(url, output_dir)], lines 14-41, in the world [w]. *)
Definition download_image (lib : UrlChecks) (url output_dir : string) (w : World)
  : Fetch :=
  match Url.urlparse lib url with
  | Raise e => {| returned := Raise e; written := [] |}
  | Ret parsed_url =>
      let filename := path_name (path parsed_url) in
      let filename :=
        if Str.is_empty filename then netloc parsed_url ++ ".html" else filename in
      let filepath := {| parent := output_dir; name := filename |} in
      match requests_get w url with
      | Responded status_code content =>
          if (status_code =? 200)%Z then
            match write_bytes w filepath content with
            | None =>
                {| returned := Ret (true, None); written := [(filepath, content)] |}
            | Some e =>
                {| returned := Ret (false, Some (exc_str e)); written := [] |}
            end
          else
            {| returned := Ret (false, Some ("HTTP " ++ Str.of_Z status_code));
               written := [] |}
      | GetRaised e =>
          {| returned := Ret (false, Some (exc_str e)); written := [] |}
      end
  end.

(** The file name chosen at lines 26-29. *)
Definition filename_of (parsed_url : ParseResult) : string :=
  if Str.is_empty (path_name (path parsed_url))
  then netloc parsed_url ++ ".html"
  else path_name (path parsed_url).

(** ** The worker pool

    [concurrent.futures.ThreadPoolExecutor] belongs to the Python standard
    library. The control loop sees it through [env] only; how many calls it
    runs at once is modelled here after [concurrent/futures/thread.py]
    (CPython 3.11): [submit] puts the work item in a queue and starts a new
    worker thread when no worker is idle and fewer than [max_workers] threads
    exist; a worker thread takes one item at a time from the queue, runs it,
    and signals that it is idle. *)

Module Pool.

Record t := {
  max_workers : Z;
  (** futures whose call has not started, oldest first *)
  work_queue : list nat;
  idle_semaphore : nat;
  (** the worker threads: the future each one is running, if any *)
  threads : list (option nat)
}.

Inductive event :=
| Submit (f : nat)     (* [executor.submit], called by the control loop *)
| Take (i : nat)       (* thread [i] gets the next work item and runs it *)
| Finish (i : nat).    (* the call run by thread [i] returns or raises *)

(** [ThreadPoolExecutor(max_workers=n)] *)
Definition create (n : Z) : result t :=
  if (n <=? 0)%Z then Raise (ValueError "max_workers must be greater than 0")
  else Ret {| max_workers := n; work_queue := []; idle_semaphore := 0;
              threads := [] |}.

(** [_adjust_thread_count] *)
Definition adjust_thread_count (p : t) : t :=
  match idle_semaphore p with
  | S k =>
      {| max_workers := max_workers p; work_queue := work_queue p;
         idle_semaphore := k; threads := threads p |}
  | O =>
      if (Z.of_nat (length (threads p)) <? max_workers p)%Z then
        {| max_workers := max_workers p; work_queue := work_queue p;
           idle_semaphore := 0; threads := (threads p ++ [None])%list |}
      else p
  end.

(** One event; [None] when it cannot happen in [p]. *)
Definition step (e : event) (p : t) : option t :=
  match e with
  | Submit f =>
      Some (adjust_thread_count
              {| max_workers := max_workers p;
                 work_queue := (work_queue p ++ [f])%list;
                 idle_semaphore := idle_semaphore p; threads := threads p |})
  | Take i =>
      match threads p !! i, work_queue p with
      | Some None, f :: q =>
          Some {| max_workers := max_workers p; work_queue := q;
                  idle_semaphore := idle_semaphore p;
                  threads := <[i := Some f]> (threads p) |}
      | _, _ => None
      end
  | Finish i =>
      match threads p !! i with
      | Some (Some _) =>
          Some {| max_workers := max_workers p; work_queue := work_queue p;
                  idle_semaphore := S (idle_semaphore p);
                  threads := <[i := None]> (threads p) |}
      | _ => None
      end
  end.

Fixpoint run (events : list event) (p : t) : option t :=
  match events with
  | [] => Some p
  | e :: events =>
      match step e p with
      | Some p' => run events p'
      | None => None
      end
  end.

(** The futures whose call is being executed. *)
Definition running (p : t) : list nat := omap id (threads p).

End Pool.

(** ** The orchestrator: [_download_images] *)

(** A future returned by [executor.submit(download_image, url, output_dir)]:
    its identity and the URL of the call it stands for. *)
Record Future := { fid : nat; arg_url : string }.

#[global] Instance Future_eq_dec : EqDecision Future.
Proof. solve_decision. Defined.

Record State := {
  success_count : Z;
  fail_count : Z;
  total_urls : Z;
  remaining_urls : Z;
  pending_urls : list string;
  failed_forever_urls : list string;
  (** a [dict], in insertion order *)
  future_to_url : list (Future * string);
  url_to_attempts : gmap string Z;
  (** the calls of [executor.submit] made so far, oldest first *)
  submitted : list string;
  (** the progress lines printed so far, oldest first:
      (success_count, total_urls, remaining_urls, fail_count) *)
  printed : list (Z * Z * Z * Z)
}.

(** The test of lines 81-85 on the error of a failed fetch; [error] is
    [None] when the fetcher returned no message, and [startswith] on it
    raises. *)
Definition retry_test (error : option string) : result bool :=
  match error with
  | None =>
      Raise (AttributeError "'NoneType' object has no attribute 'startswith'")
  | Some error =>
      Ret (Str.startswith "HTTP 5" error
           || Str.startswith "HTTP 408" error
           || Str.startswith "HTTP 429" error
           || negb (Str.startswith "HTTP" error))
  end.

(** [future_to_url.pop(future)] *)
Fixpoint pop (future : Future) (d : list (Future * string))
  : result (string * list (Future * string)) :=
  match d with
  | [] => Raise (KeyError "future")
  | (f, url) :: rest =>
      if decide (f = future) then Ret (url, rest)
      else try! r <- pop future rest; Ret (fst r, (f, url) :: snd r)
  end.

(** [url_to_attempts[url]] *)
Definition attempts_of (url : string) (m : gmap string Z) : result Z :=
  match m !! url with
  | Some a => Ret a
  | None => Raise (KeyError url)
  end.

Definition init (urls : list string) : State :=
  {| success_count := 0;
     fail_count := 0;
     total_urls := Z.of_nat (length urls);
     remaining_urls := Z.of_nat (length urls);
     pending_urls := urls;
     failed_forever_urls := [];
     future_to_url := [];
     url_to_attempts := list_to_map ((fun url => (url, 1)) <$> urls);
     submitted := [];
     printed := [] |}.

(** Lines 68-70, for the URL just popped from the left of the queue, whose
    remainder is [rest]. *)
Definition submit (url : string) (rest : list string) (st : State) : State :=
  let future := {| fid := length (submitted st); arg_url := url |} in
  {| success_count := success_count st;
     fail_count := fail_count st;
     total_urls := total_urls st;
     remaining_urls := remaining_urls st;
     pending_urls := rest;
     failed_forever_urls := failed_forever_urls st;
     future_to_url := future_to_url st ++ [(future, url)];
     url_to_attempts := url_to_attempts st;
     submitted := submitted st ++ [url];
     printed := printed st |}.

(** Lines 67-70: [while pending_urls: ...] *)
Fixpoint submit_all (pending : list string) (st : State) : State :=
  match pending with
  | [] => st
  | url :: rest => submit_all rest (submit url rest st)
  end.

Definition on_success (futs : list (Future * string)) (st : State) : State :=
  {| success_count := success_count st + 1;
     fail_count := fail_count st;
     total_urls := total_urls st;
     remaining_urls := remaining_urls st - 1;
     pending_urls := pending_urls st;
     failed_forever_urls := failed_forever_urls st;
     future_to_url := futs;
     url_to_attempts := url_to_attempts st;
     submitted := submitted st;
     printed := printed st |}.

Definition on_retry (url : string) (a : Z) (futs : list (Future * string))
  (st : State) : State :=
  {| success_count := success_count st;
     fail_count := fail_count st;
     total_urls := total_urls st;
     remaining_urls := remaining_urls st;
     pending_urls := pending_urls st ++ [url];
     failed_forever_urls := failed_forever_urls st;
     future_to_url := futs;
     url_to_attempts := <[url := a + 1]> (url_to_attempts st);
     submitted := submitted st;
     printed := printed st |}.

Definition on_failure (url : string) (futs : list (Future * string))
  (st : State) : State :=
  {| success_count := success_count st;
     fail_count := fail_count st + 1;
     total_urls := total_urls st;
     remaining_urls := remaining_urls st - 1;
     pending_urls := pending_urls st;
     failed_forever_urls := failed_forever_urls st ++ [url];
     future_to_url := futs;
     url_to_attempts := url_to_attempts st;
     submitted := submitted st;
     printed := printed st |}.

(** Lines 94-101 *)
Definition print_progress (st : State) : State :=
  {| success_count := success_count st;
     fail_count := fail_count st;
     total_urls := total_urls st;
     remaining_urls := remaining_urls st;
     pending_urls := pending_urls st;
     failed_forever_urls := failed_forever_urls st;
     future_to_url := future_to_url st;
     url_to_attempts := url_to_attempts st;
     submitted := submitted st;
     printed := printed st ++
       [(success_count st, total_urls st, remaining_urls st, fail_count st)] |}.

Section Orchestrator.

Variable lib : UrlChecks.
Variable output_dir : string.
Variables max_attempts max_workers : Z.

(** The worker pool and the network as the control loop sees them:
    [env t f] is [None] when [f.done()] is false at the poll of
    iteration [t], and [Some w] when the call of future [f] has completed,
    having run in the world [w]. *)
Variable env : nat -> nat -> option World.

(** [future.result()] *)
Definition future_result (future : Future) (w : World)
  : result (bool * option string) :=
  returned (download_image lib (arg_url future) output_dir w).

(** Lines 74-92, for one completed future. *)
Definition drain_one (fw : Future * World) (st : State) : result State :=
  let '(future, w) := fw in
  try! r <- future_result future w;
  let '(success, error) := r in
  try! p <- pop future (future_to_url st);
  let '(url, futs) := p in
  if success then Ret (on_success futs st)
  else
    try! retryable <- retry_test error;
    if retryable then
      try! a <- attempts_of url (url_to_attempts st);
      if (a <? max_attempts)%Z then Ret (on_retry url a futs st)
      else Ret (on_failure url futs st)
    else Ret (on_failure url futs st).

(** Line 73: [[f for f in future_to_url if f.done()]] *)
Definition done_futures (t : nat) (st : State) : list (Future * World) :=
  omap (fun '(f, _) => (fun w => (f, w)) <$> env t (fid f)) (future_to_url st).

Fixpoint drain (done : list (Future * World)) (st : State) : result State :=
  match done with
  | [] => Ret st
  | fw :: rest => try! st' <- drain_one fw st; drain rest st'
  end.

(** One iteration of the outer loop, lines 66-104. *)
Definition loop_body (t : nat) (st : State) : result State :=
  let st := submit_all (pending_urls st) st in
  try! st <- drain (done_futures t st) st;
  Ret (print_progress st).

(** Line 65: [pending_urls or future_to_url] *)
Definition loop_cond (st : State) : bool :=
  negb (bool_decide (pending_urls st = [])) || negb (bool_decide (future_to_url st = [])).

(** The state at the head of the loop after at most [n] more iterations,
    starting at iteration [t]. *)
Fixpoint iterate (n t : nat) (st : State) : result State :=
  match n with
  | O => Ret st
  | S n =>
      if loop_cond st then
        try! st' <- loop_body t st; iterate n (S t) st'
      else Ret st
  end.

(** The outer loop, lines 65-104, run for at most [fuel] iterations:
    [None] when it has not finished by then. *)
Fixpoint run_loop (fuel t : nat) (st : State) : option (result State) :=
  if loop_cond st then
    match fuel with
    | O => None
    | S fuel =>
        match loop_body t st with
        | Raise e => Some (Raise e)
        | Ret st' => run_loop fuel (S t) st'
        end
    end
  else Some (Ret st).

(** [ThreadPoolExecutor(max_workers=max_workers)], line 64 *)
Definition ThreadPoolExecutor : result unit :=
  try! _ <- Pool.create max_workers; Ret tt.

(** [_download_images(urls)], lines 45-106 *)
Definition _download_images (fuel : nat) (urls : list string)
  : option (result (list string)) :=
  match ThreadPoolExecutor with
  | Raise e => Some (Raise e)
  | Ret _ =>
      match run_loop fuel 0 (init urls) with
      | None => None
      | Some (Raise e) => Some (Raise e)
      | Some (Ret st) => Some (Ret (failed_forever_urls st))
      end
  end.

End Orchestrator.

(** ** The retry rule of the specification and sample worlds *)

(** The reason of a failure, as the specification names it. *)
Inductive Reason :=
| HttpStatus (code : Z)
| Transport (message : string).

(** The error string [download_image] returns for a reason (lines 39, 41). *)
Definition error_of (r : Reason) : string :=
  match r with
  | HttpStatus c => "HTTP " ++ Str.of_Z c
  | Transport m => m
  end.

(** The statuses the specification retries: 5xx, 408 and 429. *)
Definition retryable_status (c : Z) : bool :=
  ((500 <=? c)%Z && (c <=? 599)%Z) || (c =? 408)%Z || (c =? 429)%Z.

(** The retry rule of the specification. *)
Definition spec_retryable (r : Reason) : bool :=
  match r with
  | HttpStatus c => retryable_status c
  | Transport _ => true
  end.

(** Library checks that accept every bracketed host and every netloc. *)
Definition lib0 : UrlChecks :=
  {| check_bracketed_host := fun _ => None; check_nfkc := fun _ => None |}.

(** A world in which every exchange completes with status [c] and every
    write succeeds. *)
Definition world_status (c : Z) : World :=
  {| requests_get := fun _ => Responded c "payload";
     write_bytes := fun _ _ => None |}.

(** A world in which [requests.get] raises an exception with message [m]. *)
Definition world_raises (m : string) : World :=
  {| requests_get := fun _ => GetRaised (mkExc "ConnectionError" m);
     write_bytes := fun _ _ => None |}.

(** The message of the [ReadTimeout] that requests raises when a server
    does not answer in time. *)
Definition read_timeout_message : string :=
  "HTTPSConnectionPool(host='example.com', port=443): Read timed out. (read timeout=30)".

(** ** Notions used to state the properties of the orchestrator *)

(** The URLs of the fetches in flight: submitted and not yet drained. *)
Definition in_flight (st : State) : list string := (future_to_url st).*2.

(** What a progress line and the counters must satisfy. *)
Definition balanced (total succeeded remaining failed : Z) : Prop :=
  (succeeded + failed + remaining = total
   /\ 0 <= remaining
   /\ succeeded + failed <= total)%Z.

(** The number of calls of [executor.submit] made for [url]. *)
Definition attempts_made (url : string) (st : State) : Z :=
  Z.of_nat (length (List.filter (String.eqb url) (submitted st))).

(** The tries a URL has left, the one in progress included. *)
Definition budget (max_attempts : Z) (m : gmap string Z) (url : string) : nat :=
  S (Z.to_nat (max_attempts - default max_attempts (m !! url))).

(** The work the loop still has to do: the tries left of every pending and
    every in-flight item. *)
Definition work_left (max_attempts : Z) (st : State) : nat :=
  sum_list_with (budget max_attempts (url_to_attempts st))
                (pending_urls st ++ in_flight st)%list.

(** Every dispatched fetch eventually completes: whenever the loop polls,
    there is a later poll at which the future is done. *)
Definition every_fetch_completes (env : nat -> nat -> option World) : Prop :=
  forall (f t : nat), exists t', (t <= t')%nat /\ env t' f <> None.

(** The completed futures the loop drains were found done in [env]. *)
Definition polled (env : nat -> nat -> option World) (fw : Future * World) : Prop :=
  exists t, env t (fid fw.1) = Some fw.2.

(** The counters agree with the queue and the dictionary of futures, and
    every progress line printed so far is balanced. *)
Definition counters_inv (st : State) : Prop :=
  remaining_urls st
    = Z.of_nat (length (pending_urls st) + length (future_to_url st))
  /\ (success_count st + fail_count st + remaining_urls st = total_urls st)%Z
  /\ Forall (fun line : Z * Z * Z * Z =>
               let '(s, tot, r, f) := line in
               tot = total_urls st /\ balanced tot s r f)
            (printed st).

(** No URL is at two places among the queue, the fetches in flight and the
    permanent failures. *)
Definition distinct_inv (st : State) : Prop :=
  NoDup (pending_urls st ++ in_flight st ++ failed_forever_urls st)%list.

(** Every fetch of [url] fails, with an error the test of lines 81-85 finds
    retryable. *)
Definition always_fails_retryably (lib : UrlChecks) (output_dir : string)
  (env : nat -> nat -> option World) (url : string) : Prop :=
  forall t f w, env t f = Some w ->
    exists err,
      returned (download_image lib url output_dir w) = Ret (false, Some err)
      /\ retry_test (Some err) = Ret true.

(** Every future in the dictionary is mapped to the URL of its call. *)
Definition futures_inv (st : State) : Prop :=
  Forall (fun p : Future * string => arg_url p.1 = p.2) (future_to_url st).

(** Where the URL [u] is and how many fetches it has had: queued after
    [a - 1] fetches, in flight for its fetch number [a], or failed for good
    after [max_attempts] fetches, [a] being its entry in [url_to_attempts]. *)
Definition exhaust_inv (max_attempts : Z) (u : string) (st : State) : Prop :=
  exists a, url_to_attempts st !! u = Some a
    /\ (1 <= a <= max_attempts)%Z
    /\ ((u ∈ pending_urls st /\ attempts_made u st = (a - 1)%Z)
        \/ (u ∈ in_flight st /\ attempts_made u st = a)
        \/ (u ∈ failed_forever_urls st /\ attempts_made u st = a
            /\ a = max_attempts)).

(** The loop started at iteration [t] in state [st] comes to an end, by
    returning or by raising. *)
Definition terminates (lib : UrlChecks) (output_dir : string) (max_attempts : Z)
  (env : nat -> nat -> option World) (t : nat) (st : State) : Prop :=
  exists fuel r, run_loop lib output_dir max_attempts env fuel t st = Some r.

(** ** The callers: [download_images] and [main] *)

(** [str.splitlines] and [str.strip], for characters below 256. *)
Module Text.

(** The line boundaries of [str.splitlines]: LF, VT, FF, CR, FS, GS, RS
    and NEL; CR followed by LF is one boundary. *)
Definition is_linebreak (a : ascii) : bool :=
  let c := Str.code a in
  ((10 <=? c) && (c <=? 13) || (28 <=? c) && (c <=? 30) || (c =? 133))%N.

(** The characters for which [str.isspace] holds. *)
Definition is_space (a : ascii) : bool :=
  let c := Str.code a in
  ((9 <=? c) && (c <=? 13) || (28 <=? c) && (c <=? 32) || (c =? 133)
   || (c =? 160))%N.

(** [s.splitlines()] *)
Fixpoint splitlines (s : string) : list string :=
  match s with
  | EmptyString => []
  | String a r =>
      if is_linebreak a then
        match r with
        | String b r' =>
            if ((Str.code a =? 13) && (Str.code b =? 10))%N
            then EmptyString :: splitlines r'
            else EmptyString :: splitlines r
        | EmptyString => [EmptyString]
        end
      else
        match splitlines r with
        | [] => [String a EmptyString]
        | x :: l => String a x :: l
        end
  end.

(** [s.lstrip()] *)
Definition lstrip (s : string) : string := Str.dropwhile is_space s.

(** [s.rstrip()] *)
Fixpoint rstrip (s : string) : string :=
  match s with
  | EmptyString => EmptyString
  | String a r =>
      match rstrip r with
      | EmptyString => if is_space a then EmptyString else String a EmptyString
      | r' => String a r'
      end
  end.

(** [s.strip()] *)
Definition strip (s : string) : string := rstrip (lstrip s).

End Text.

(** Lines 166-170 of [main]: the lines of the file, stripped, as a set
    without the empty string, then as a list. The order in which Python
    lists a set is not specified; the one of [elements] stands for it. *)
Definition read_urls (content : string) : list string :=
  elements ((list_to_set (Text.strip <$> Text.splitlines content) : gset string)
            ∖ {[ EmptyString ]}).

(** One call of [print] or [click.echo]: the arguments and the separator. *)
Record Print := { args : list string; sep : string }.

Definition newline : string := String (ascii_of_N 10) EmptyString.

(** The part of the file system the callers use. *)
Record FileSystem := {
  (** [Path(name).read_text()] *)
  read_text : string -> result string;
  (** [output_dir.mkdir(parents=True, exist_ok=True)]: the exception it
      raises, if any *)
  mkdir : string -> option PyExc
}.

(** Lines 112-115: the report printed after the run. *)
Definition failure_report (failed_urls : list string) : list Print :=
  {| args := [newline]; sep := " " |}
  :: (if bool_decide (failed_urls = []) then []
      else [ {| args := [" FAILED TO DOWNLOAD:"]; sep := " " |};
             {| args := EmptyString :: failed_urls; sep := newline ++ " " |} ]).

(** [download_images(urls, output_dir, max_attempts=..., max_workers=...)],
    lines 44 and 108-115: what it prints after the progress lines. *)
Definition download_images (lib : UrlChecks) (fs : FileSystem)
  (env : nat -> nat -> option World) (fuel : nat)
  (urls : list string) (output_dir : string) (max_attempts max_workers : Z)
  : option (result (list Print)) :=
  match mkdir fs output_dir with
  | Some e => Some (Raise e)
  | None =>
      match _download_images lib output_dir max_attempts max_workers env fuel urls with
      | None => None
      | Some (Raise e) => Some (Raise e)
      | Some (Ret failed_urls) => Some (Ret (failure_report failed_urls))
      end
  end.

(** The truth value of an optional command-line argument: [None] and the
    empty string are false. *)
Definition truthy (s : option string) : option string :=
  match s with
  | Some s => if Str.is_empty s then None else Some s
  | None => None
  end.

Definition UsageError (msg : string) : PyExc := mkExc "UsageError" msg.

(** Lines 143-150: the name of the file of URLs. *)
Definition input_file_name (url_file url_file_opt : option string) : result string :=
  match truthy url_file_opt with
  | Some n => Ret n
  | None =>
      match truthy url_file with
      | Some n => Ret n
      | None =>
          Raise (UsageError
            "Input file is required. Use -i or provide it as the first argument.")
      end
  end.

(** Lines 153-159: the name of the output directory, and what is echoed. *)
Definition output_dir_name (output_dir output_dir_opt : option string)
  : string * list Print :=
  match truthy output_dir_opt with
  | Some n => (n, [])
  | None =>
      match truthy output_dir with
      | Some n => (n, [])
      | None =>
          ("pardl-downloads",
           [ {| args := [" Using default output directory: pardl-downloads"];
                sep := " " |} ])
      end
  end.

(** Lines 173-176: the configuration printed before the run. *)
Definition configuration (url_file_name output_name : string)
  (max_attempts parallel : Z) : list Print :=
  [ {| args := [" URL file: " ++ url_file_name]; sep := " " |};
    {| args := [" Output directory: " ++ output_name]; sep := " " |};
    {| args := [" Max attempts: " ++ Str.of_Z max_attempts]; sep := " " |};
    {| args := [" Parallel downloads: " ++ Str.of_Z parallel ++ newline]; sep := " " |} ].

(** [main], lines 137-180: what it prints, the progress lines apart. *)
Definition main (lib : UrlChecks) (fs : FileSystem)
  (env : nat -> nat -> option World) (fuel : nat)
  (url_file output_dir url_file_opt output_dir_opt : option string)
  (max_attempts parallel : Z) : option (result (list Print)) :=
  match input_file_name url_file url_file_opt with
  | Raise e => Some (Raise e)
  | Ret url_file_name =>
      let '(output_name, echoed) := output_dir_name output_dir output_dir_opt in
      match read_text fs url_file_name with
      | Raise e => Some (Raise e)
      | Ret content =>
          let urls := read_urls content in
          let shown := configuration url_file_name output_name max_attempts parallel in
          match download_images lib fs env fuel urls output_name max_attempts parallel with
          | None => None
          | Some (Raise e) => Some (Raise e)
          | Some (Ret report) => Some (Ret (echoed ++ shown ++ report)%list)
          end
      end
  end.

(** ** Further notions about the state of the loop *)

(** The bookkeeping of the loop is sound for the input list [urls]: every
    future stands for a fetch of the URL it is mapped to, futures are
    distinct and were submitted, every input URL has its attempt count,
    every URL the loop holds is an input URL, and the count of failures is
    the length of the list of failures. *)
Definition sound_inv (urls : list string) (st : State) : Prop :=
  futures_inv st
  /\ NoDup (future_to_url st).*1
  /\ (forall f, f ∈ (future_to_url st).*1 -> (fid f < length (submitted st))%nat)
  /\ (forall u, u ∈ urls -> is_Some (url_to_attempts st !! u))
  /\ (forall u, u ∈ (pending_urls st ++ in_flight st ++ failed_forever_urls st
                      ++ submitted st)%list -> u ∈ urls)
  /\ fail_count st = Z.of_nat (length (failed_forever_urls st))
  /\ (0 <= success_count st)%Z.

(** The characters of a URL that [urlparse] takes no exception to: ASCII,
    and no square bracket. *)
Definition unbracketed (a : ascii) : bool :=
  Str.is_ascii a && negb (Ascii.eqb a Url.lbracket) && negb (Ascii.eqb a Url.rbracket).

(** [st'] is [st] some steps later: counters moved one way only, logs only
    appended to. *)
Definition later (st st' : State) : Prop :=
  (success_count st <= success_count st')%Z
  /\ (fail_count st <= fail_count st')%Z
  /\ (remaining_urls st' <= remaining_urls st)%Z
  /\ total_urls st' = total_urls st
  /\ failed_forever_urls st `prefix_of` failed_forever_urls st'
  /\ submitted st `prefix_of` submitted st'
  /\ printed st `prefix_of` printed st'.

(** The attempt count of the URL [u] and the fetches it has had: [a - 1]
    while it is queued, [a] while it is in flight and once it is done,
    [a] being its entry in [url_to_attempts], which is 1 or at most
    [max_attempts]. *)
Definition counted_inv (max_attempts : Z) (u : string) (st : State) : Prop :=
  exists a, url_to_attempts st !! u = Some a
    /\ (1 <= a)%Z /\ (a = 1%Z \/ (a <= max_attempts)%Z)
    /\ ((u ∈ pending_urls st /\ attempts_made u st = (a - 1)%Z)
        \/ (u ∈ in_flight st /\ attempts_made u st = a)
        \/ ((u ∉ pending_urls st) /\ (u ∉ in_flight st) /\ attempts_made u st = a)).

(** Every fetch of [url] succeeds. *)
Definition always_succeeds (lib : UrlChecks) (output_dir : string)
  (env : nat -> nat -> option World) (url : string) : Prop :=
  forall t f w, env t f = Some w ->
    returned (download_image lib url output_dir w) = Ret (true, None).

(** Every fetch of [url] fails, with an error the test of lines 81-85 does
    not find retryable. *)
Definition always_fails_for_good (lib : UrlChecks) (output_dir : string)
  (env : nat -> nat -> option World) (url : string) : Prop :=
  forall t f w, env t f = Some w ->
    exists err,
      returned (download_image lib url output_dir w) = Ret (false, Some err)
      /\ retry_test (Some err) = Ret false.

(** No fetch of [url] ends in a failure that the loop retries. *)
Definition never_retried (lib : UrlChecks) (output_dir : string)
  (env : nat -> nat -> option World) (url : string) : Prop :=
  forall t f w success error, env t f = Some w ->
    returned (download_image lib url output_dir w) = Ret (success, error) ->
    success = true \/ retry_test error = Ret false.

(** The characters of a plain URL segment: printable ASCII other than the
    space, the slash and the characters [#], [?], [;], [[] and []] that
    [urlparse] gives a meaning to. *)
Definition plain (a : ascii) : bool :=
  Str.is_ascii a && (32 <? Str.code a)%N
  && negb (Ascii.eqb a Url.slash) && negb (Ascii.eqb a Url.hash)
  && negb (Ascii.eqb a Url.qmark) && negb (Ascii.eqb a Url.semi)
  && negb (Ascii.eqb a Url.lbracket) && negb (Ascii.eqb a Url.rbracket).

Definition plain_or_slash (a : ascii) : bool := plain a || Ascii.eqb a Url.slash.

(** The retries a URL has left. *)
Definition spare (max_attempts : Z) (m : gmap string Z) (url : string) : nat :=
  Z.to_nat (max_attempts - default max_attempts (m !! url)).

(** The fetches submitted so far and those that may still be: one and the
    retries left for every pending item, the retries left for every item
    in flight. *)
Definition fetch_potential (max_attempts : Z) (st : State) : nat :=
  length (submitted st)
  + sum_list_with (fun u => S (spare max_attempts (url_to_attempts st) u))
                  (pending_urls st)
  + sum_list_with (spare max_attempts (url_to_attempts st)) (in_flight st).

(** * Properties of the fetcher *)

Section FetcherFacts.

Variable lib : UrlChecks.

Lemma check_bracketed_netloc_raises nl e :
  Url.check_bracketed_netloc lib nl = Raise e -> exc_class e = "ValueError".
Proof.
  unfold Url.check_bracketed_netloc.
  repeat case_match; intros Hr; inversion Hr; reflexivity.
Qed.

Lemma checknetloc_raises nl e :
  Url.checknetloc lib nl = Raise e -> exc_class e = "ValueError".
Proof.
  unfold Url.checknetloc.
  repeat case_match; intros Hr; inversion Hr; reflexivity.
Qed.

Lemma urlsplit_raises url e :
  Url.urlsplit lib url = Raise e -> exc_class e = "ValueError".
Proof.
  unfold Url.urlsplit.
  repeat case_match; simpl; try discriminate;
    repeat match goal with
    | |- context [Url.check_bracketed_netloc lib ?n] =>
        let E := fresh "E" in
        destruct (Url.check_bracketed_netloc lib n) eqn:E; simpl;
        [ | apply check_bracketed_netloc_raises in E ]
    | |- context [Url.checknetloc lib ?n] =>
        let E := fresh "E" in
        destruct (Url.checknetloc lib n) eqn:E; simpl;
        [ | apply checknetloc_raises in E ]
    | |- context [let '(_, _) := ?p in _] => destruct p; simpl
    end;
    intros Hr; inversion Hr; subst; try reflexivity; try assumption.
Qed.

(** The only exceptions of [urlparse] are [ValueError]s. *)
Lemma urlparse_raises url e :
  Url.urlparse lib url = Raise e -> exc_class e = "ValueError".
Proof.
  unfold Url.urlparse.
  destruct (Url.urlsplit lib url) as [[[[[sch nl] p] q] f]|e'] eqn:E; simpl.
  - destruct (_ && _); [destruct (Url.splitparams p)|]; discriminate.
  - intros Hr; inversion Hr; subst. eapply urlsplit_raises; eauto.
Qed.

(** [download_image] raises exactly when [urlparse] does, and raises the
    same exception: everything after line 25 either cannot raise or is
    inside the [try] block. *)
Lemma download_image_raises_iff url dir w e :
  returned (download_image lib url dir w) = Raise e <->
  Url.urlparse lib url = Raise e.
Proof.
  unfold download_image.
  destruct (Url.urlparse lib url) as [p|e']; simpl.
  - split; [|discriminate].
    destruct (requests_get w url); [|discriminate].
    destruct (_ =? _)%Z; [|discriminate].
    destruct (write_bytes w _ _); discriminate.
  - split; intros Hr; inversion Hr; reflexivity.
Qed.

(** The four ways [download_image] returns, by what the world does. *)
Lemma download_image_cases url dir w parsed_url :
  Url.urlparse lib url = Ret parsed_url ->
  let filepath := {| parent := dir; name := filename_of parsed_url |} in
  download_image lib url dir w =
  match requests_get w url with
  | Responded c content =>
      if (c =? 200)%Z then
        match write_bytes w filepath content with
        | None => {| returned := Ret (true, None);
                     written := [(filepath, content)] |}
        | Some e => {| returned := Ret (false, Some (exc_str e)); written := [] |}
        end
      else {| returned := Ret (false, Some ("HTTP " ++ Str.of_Z c));
              written := [] |}
  | GetRaised e => {| returned := Ret (false, Some (exc_str e)); written := [] |}
  end.
Proof.
  intros E. unfold download_image, filename_of. rewrite E. reflexivity.
Qed.

Lemma download_image_returned_shape url dir w s e :
  returned (download_image lib url dir w) = Ret (s, e) ->
  (s = true /\ e = None) \/ (s = false /\ exists msg, e = Some msg).
Proof.
  unfold download_image.
  repeat case_match; simpl; intros Hr; inversion Hr; subst; eauto.
Qed.

End FetcherFacts.

(** ** The retry test on the errors of the fetcher *)

Lemma retry_test_statuses_checked :
  List.forallb
    (fun c => match retry_test (Some (error_of (HttpStatus c))) with
              | Ret b => Bool.eqb b (retryable_status c)
              | Raise _ => false
              end)
    (seqZ 100 900) = true.
Proof. vm_compute. reflexivity. Qed.

(** On the error of a completed exchange with a three-digit status, the
    test of lines 81-85 is the rule of the specification. *)
Lemma retry_test_http_status (c : Z) :
  (100 <= c <= 999)%Z ->
  retry_test (Some (error_of (HttpStatus c))) = Ret (retryable_status c).
Proof.
  intros Hc.
  pose proof retry_test_statuses_checked as Hall.
  rewrite List.forallb_forall in Hall.
  assert (Hin : List.In c (seqZ 100 900))
    by (apply list_elem_of_In, elem_of_seqZ; lia).
  specialize (Hall c Hin).
  destruct (retry_test (Some (error_of (HttpStatus c)))) as [b|]; [|discriminate].
  apply Bool.eqb_prop in Hall. congruence.
Qed.

(** On a transport error the test retries exactly when the message does
    not begin with [HTTP], or begins with [HTTP 5], [HTTP 408] or
    [HTTP 429]. *)
Lemma retry_test_transport (m : string) :
  Str.startswith "HTTP" m = false ->
  retry_test (Some (error_of (Transport m))) = Ret true.
Proof.
  intros Hm. cbn [retry_test error_of]. rewrite Hm.
  f_equal. apply orb_true_r.
Qed.

(** * The claims about the fetcher *)

(** C2 (the fetcher never raises). The code breaks it: [urlparse] is
    called at line 25, before the [try] block of line 33, and raises
    [ValueError] on a URL whose netloc has an unmatched bracket. For the
    URL [http://[], whatever the storage directory and the world,
    [download_image] raises [ValueError("Invalid IPv6 URL")] instead of
    returning a pair, and the control loop, which calls [future.result()],
    raises it in turn. *)
Theorem download_image_raises_on_unmatched_bracket
  (lib : UrlChecks) (dir : string) (w : World) :
  returned (download_image lib "http://[" dir w)
    = Raise (ValueError "Invalid IPv6 URL")
  /\ forall max_attempts env,
       env 0%nat 0%nat = Some w ->
       run_loop lib dir max_attempts env 1 0 (init ["http://["])
         = Some (Raise (ValueError "Invalid IPv6 URL")).
Proof.
  split; [reflexivity|].
  intros max_attempts env Hw.
  cbn [run_loop init loop_cond pending_urls bool_decide].
  unfold loop_cond, loop_body; cbn.
  unfold done_futures; cbn. rewrite Hw. reflexivity.
Qed.

Lemma download_image_raises_on_unmatched_bracket_witness :
  run_loop lib0 "out" 5 (fun _ _ => Some (world_status 200)) 1 0 (init ["http://["])
    = Some (Raise (ValueError "Invalid IPv6 URL")).
Proof.
  apply (download_image_raises_on_unmatched_bracket lib0 "out" (world_status 200)).
  reflexivity.
Defined.

(** C7 (the file written on success). The code breaks the fallback name:
    when the path yields no name the file is called after the whole netloc,
    port and user information included, not after the host name that the
    comment of line 27 announces. For [http://example.com:8080/] answered
    with status 200 the one file written is [example.com:8080.html], while
    the host name of the URL is [example.com]. *)
Theorem fallback_name_is_netloc_not_hostname :
  let url := "http://example.com:8080/" in
  let f := download_image lib0 url "out" (world_status 200) in
  returned f = Ret (true, None)
  /\ written f = [({| parent := "out"; name := "example.com:8080.html" |}, "payload")]
  /\ (Url.hostname <$> (match Url.urlparse lib0 url with
                        | Ret p => Some p
                        | Raise _ => None
                        end)) = Some (Some "example.com").
Proof. repeat split. Qed.

(** C8, as stated, fails: a completed exchange with status 204, a 2xx
    code, yields a failure carrying [HTTP 204]. *)
Lemma status_204_is_a_failure :
  (200 <= 204 <= 299)%Z
  /\ requests_get (world_status 204) "http://example.com/a.png"
       = Responded 204 "payload"
  /\ returned (download_image lib0 "http://example.com/a.png" "out" (world_status 204))
       = Ret (false, Some "HTTP 204").
Proof. repeat split; lia. Qed.

(** C8, amended: when the exchange completes with status [c], the fetcher
    returns a failure carrying [HTTP c] exactly when [c] is not 200; with
    status 200 it returns success when the payload is written, and a
    failure carrying the message of the write error otherwise. *)
Theorem status_200_alone_succeeds
  (lib : UrlChecks) (url dir : string) (w : World)
  (parsed_url : ParseResult) (c : Z) (content : string) :
  Url.urlparse lib url = Ret parsed_url ->
  requests_get w url = Responded c content ->
  let f := download_image lib url dir w in
  let filepath := {| parent := dir; name := filename_of parsed_url |} in
  (c <> 200%Z -> returned f = Ret (false, Some (error_of (HttpStatus c))))
  /\ (c = 200%Z -> write_bytes w filepath content = None ->
      returned f = Ret (true, None))
  /\ (c = 200%Z -> forall e, write_bytes w filepath content = Some e ->
      returned f = Ret (false, Some (exc_str e)))
  /\ (returned f = Ret (false, Some (error_of (HttpStatus c))) ->
      write_bytes w filepath content = None -> c <> 200%Z).
Proof.
  intros Hp Hg f filepath. subst f.
  rewrite (download_image_cases lib url dir w parsed_url Hp).
  cbv zeta. rewrite Hg. fold filepath.
  destruct (Z.eqb_spec c 200) as [->|Hne].
  - repeat split; try congruence.
    + intros _ Hw. rewrite Hw. reflexivity.
    + intros _ e Hw. rewrite Hw. reflexivity.
    + intros Hr Hw. rewrite Hw in Hr. discriminate.
  - repeat split; try congruence.
Qed.

Lemma status_200_alone_succeeds_witness :
  returned (download_image lib0 "http://example.com/a.png" "out" (world_status 404))
    = Ret (false, Some "HTTP 404").
Proof.
  refine (proj1 (status_200_alone_succeeds lib0 "http://example.com/a.png" "out"
            (world_status 404)
            {| scheme := "http"; netloc := "example.com"; path := "/a.png";
               params := ""; query := ""; fragment := "" |}
            404 "payload" _ _) _).
  - reflexivity.
  - reflexivity.
  - lia.
Defined.

(** ** Exceptions of the drain loop *)

Section DrainExceptions.

Variable lib : UrlChecks.
Variable output_dir : string.
Variable max_attempts : Z.
Variable env : nat -> nat -> option World.

Lemma pop_raises future d e :
  pop future d = Raise e -> exc_class e = "KeyError".
Proof.
  induction d as [|[f url] d IH]; simpl.
  - intros Hr; inversion Hr; reflexivity.
  - destruct (decide (f = future)); [discriminate|].
    destruct (pop future d); simpl; [discriminate|].
    intros Hr; inversion Hr; subst. apply IH. reflexivity.
Qed.

(** A failed fetch carries a message, so the prefix tests of lines 81-85
    have a string to look at. *)
Lemma retry_test_on_fetch_result future w error :
  future_result lib output_dir future w = Ret (false, error) ->
  exists msg, error = Some msg /\
    retry_test error =
      Ret (Str.startswith "HTTP 5" msg || Str.startswith "HTTP 408" msg
           || Str.startswith "HTTP 429" msg || negb (Str.startswith "HTTP" msg)).
Proof.
  unfold future_result. intros Hr.
  apply download_image_returned_shape in Hr as [[Hs _]|[_ [msg ->]]];
    [discriminate|].
  exists msg. split; reflexivity.
Qed.

Lemma drain_one_raises fw st e :
  drain_one lib output_dir max_attempts fw st = Raise e ->
  exc_class e = "ValueError" \/ exc_class e = "KeyError".
Proof.
  destruct fw as [future w]. unfold drain_one.
  destruct (future_result lib output_dir future w) as [[success error]|e'] eqn:Er;
    simpl.
  - destruct (pop future (future_to_url st)) as [[url futs]|e'] eqn:Ep; simpl.
    + destruct success; [discriminate|].
      apply retry_test_on_fetch_result in Er as [msg [-> Ht]].
      rewrite Ht. simpl.
      destruct (_ || _); [|discriminate].
      unfold attempts_of. destruct (url_to_attempts st !! url); simpl.
      * destruct (_ <? _)%Z; discriminate.
      * intros Hr; inversion Hr; subst. right; reflexivity.
    + intros Hr; inversion Hr; subst. right. eapply pop_raises; eauto.
  - intros Hr; inversion Hr; subst. left.
    unfold future_result in Er. apply download_image_raises_iff in Er.
    eapply urlparse_raises; eauto.
Qed.

Lemma drain_raises done st e :
  drain lib output_dir max_attempts done st = Raise e ->
  exc_class e = "ValueError" \/ exc_class e = "KeyError".
Proof.
  revert st. induction done as [|fw done IH]; intros st; simpl; [discriminate|].
  destruct (drain_one lib output_dir max_attempts fw st) as [st'|e'] eqn:E; simpl.
  - apply IH.
  - intros Hr; inversion Hr; subst. eapply drain_one_raises; eauto.
Qed.

Lemma loop_body_raises t st e :
  loop_body lib output_dir max_attempts env t st = Raise e ->
  exc_class e = "ValueError" \/ exc_class e = "KeyError".
Proof.
  unfold loop_body.
  destruct (drain _ _ _ _ _) as [st'|e'] eqn:E; simpl; [discriminate|].
  intros Hr; inversion Hr; subst. eapply drain_raises; eauto.
Qed.

End DrainExceptions.

(** C10: whatever [download_image] returns is [(True, None)] or
    [(False, s)] with [s] a string, so the error is [None] exactly when the
    fetch succeeded; hence the prefix tests of the drain loop always have a
    string to look at, and no iteration of the loop raises the
    [AttributeError] of a missing error. *)
Theorem error_is_missing_only_on_success
  (lib : UrlChecks) (output_dir : string) (max_attempts : Z)
  (env : nat -> nat -> option World) :
  (forall url w success error,
     returned (download_image lib url output_dir w) = Ret (success, error) ->
     (error = None <-> success = true)
     /\ (success = false -> exists msg, error = Some msg))
  /\ (forall future w error,
        future_result lib output_dir future w = Ret (false, error) ->
        exists b, retry_test error = Ret b)
  /\ (forall t st e,
        loop_body lib output_dir max_attempts env t st = Raise e ->
        exc_class e <> "AttributeError").
Proof.
  split; [|split].
  - intros url w success error Hr.
    apply download_image_returned_shape in Hr as [[-> ->]|[-> [msg ->]]].
    + split; [tauto|discriminate].
    + split; [split; discriminate|]. eauto.
  - intros future w error Hr.
    apply retry_test_on_fetch_result in Hr as [msg [_ Ht]]. eauto.
  - intros t st e Hr.
    apply loop_body_raises in Hr as [-> | ->]; discriminate.
Qed.

Lemma error_is_missing_only_on_success_witness :
  (Some "HTTP 500" = None <-> false = true)
  /\ (false = false -> exists msg, Some "HTTP 500" = Some msg).
Proof.
  apply (proj1 (error_is_missing_only_on_success lib0 "out" 5 (fun _ _ => None))
           "http://example.com/a.png" (world_status 500)).
  reflexivity.
Defined.

(** * Invariants of the control loop *)

Lemma pop_Permutation future d url d' :
  pop future d = Ret (url, d') -> d ≡ₚ (future, url) :: d'.
Proof.
  revert url d'. induction d as [|[f u] d IH]; intros url d'; simpl; [discriminate|].
  destruct (decide (f = future)) as [->|Hne].
  - intros Hr; inversion Hr; subst. reflexivity.
  - destruct (pop future d) as [[u' d'']|] eqn:E; simpl; [|discriminate].
    intros Hr; inversion Hr; subst.
    rewrite (IH _ _ eq_refl). apply Permutation_swap.
Qed.

Section LoopInvariants.

Variable lib : UrlChecks.
Variable output_dir : string.
Variable max_attempts : Z.
Variable env : nat -> nat -> option World.

Local Abbreviation drain1 := (drain_one lib output_dir max_attempts).
Local Abbreviation drains := (drain lib output_dir max_attempts).
Local Abbreviation body := (loop_body lib output_dir max_attempts env).
Local Abbreviation iter := (iterate lib output_dir max_attempts env).
Local Abbreviation run := (run_loop lib output_dir max_attempts env).
Local Abbreviation dones := (done_futures env).

Local Abbreviation polled := (polled env).

Lemma done_futures_polled t st : Forall polled (dones t st).
Proof.
  unfold done_futures. apply Forall_forall. intros [f w] Hin.
  apply list_elem_of_omap in Hin as [[f' url] [_ Hf]].
  destruct (env t (fid f')) eqn:E; simpl in Hf; inversion Hf; subst.
  exists t. exact E.
Qed.

(** A property of the state kept by the three kinds of step of the loop
    is kept by an iteration, by any number of iterations, and holds when
    the loop ends. *)
Section Preserved.

Variable P : State -> Prop.
Hypothesis P_submit : forall url rest st,
  P st -> pending_urls st = url :: rest -> P (submit url rest st).
Hypothesis P_drain_one : forall fw st st',
  P st -> polled fw -> drain1 fw st = Ret st' -> P st'.
Hypothesis P_print : forall st, P st -> P (print_progress st).

Lemma submit_all_preserves pending st :
  pending_urls st = pending -> P st -> P (submit_all pending st).
Proof.
  revert st. induction pending as [|url rest IH]; intros st Hp HP; simpl.
  - exact HP.
  - apply IH; [reflexivity|]. apply P_submit; assumption.
Qed.

Lemma drain_preserves done st st' :
  Forall polled done -> P st -> drains done st = Ret st' -> P st'.
Proof.
  revert st. induction done as [|fw done IH]; intros st Hd HP; simpl.
  - intros Hr; inversion Hr; subst. exact HP.
  - inversion Hd; subst.
    destruct (drain1 fw st) as [st1|] eqn:E; simpl; [|discriminate].
    apply IH; [assumption|]. eapply P_drain_one; eauto.
Qed.

Lemma loop_body_preserves t st st' :
  P st -> body t st = Ret st' -> P st'.
Proof.
  unfold loop_body. intros HP.
  destruct (drains _ _) as [st1|] eqn:E; simpl; [|discriminate].
  intros Hr; inversion Hr; subst. apply P_print.
  eapply drain_preserves; [apply done_futures_polled| |exact E].
  apply submit_all_preserves; [reflexivity|exact HP].
Qed.

Lemma iterate_preserves n t st st' :
  P st -> iter n t st = Ret st' -> P st'.
Proof.
  revert t st. induction n as [|n IH]; intros t st HP; simpl.
  - intros Hr; inversion Hr; subst. exact HP.
  - destruct (loop_cond st).
    + destruct (body t st) as [st1|] eqn:E; simpl; [|discriminate].
      apply IH. eapply loop_body_preserves; eauto.
    + intros Hr; inversion Hr; subst. exact HP.
Qed.

Lemma run_loop_preserves fuel t st st' :
  P st -> run fuel t st = Some (Ret st') ->
  P st' /\ loop_cond st' = false.
Proof.
  revert t st. induction fuel as [|fuel IH]; intros t st HP; simpl.
  - destruct (loop_cond st) eqn:Ec; [discriminate|].
    intros Hr; inversion Hr; subst. auto.
  - destruct (loop_cond st) eqn:Ec.
    + destruct (body t st) as [st1|] eqn:E; [|discriminate].
      apply IH. eapply loop_body_preserves; eauto.
    + intros Hr; inversion Hr; subst. auto.
Qed.

End Preserved.

End LoopInvariants.

(** ** The three outcomes of draining one future *)

Section DrainOne.

Variable lib : UrlChecks.
Variable output_dir : string.
Variable max_attempts : Z.

(** When [drain_one] returns, the future was in the dictionary and the
    state is changed by one of lines 78-79, 87-88 and 90-92. *)
Lemma drain_one_Ret future w st st' :
  drain_one lib output_dir max_attempts (future, w) st = Ret st' ->
  exists success error url futs,
    future_result lib output_dir future w = Ret (success, error)
    /\ pop future (future_to_url st) = Ret (url, futs)
    /\ ((success = true /\ st' = on_success futs st)
        \/ (success = false
            /\ exists a, retry_test error = Ret true
                 /\ url_to_attempts st !! url = Some a
                 /\ (a < max_attempts)%Z
                 /\ st' = on_retry url a futs st)
        \/ (success = false
            /\ st' = on_failure url futs st
            /\ (retry_test error = Ret false
                \/ exists a, retry_test error = Ret true
                     /\ url_to_attempts st !! url = Some a
                     /\ (max_attempts <= a)%Z))).
Proof.
  unfold drain_one.
  destruct (future_result lib output_dir future w) as [[success error]|];
    simpl; [|discriminate].
  destruct (pop future (future_to_url st)) as [[url futs]|]; simpl; [|discriminate].
  intros Hr. exists success, error, url, futs.
  split; [reflexivity|]. split; [reflexivity|].
  destruct success.
  - inversion Hr; subst. left; auto.
  - right. destruct (retry_test error) as [[|]|]; simpl in Hr; [| |discriminate].
    + unfold attempts_of in Hr.
      destruct (url_to_attempts st !! url) as [a|] eqn:Ea; simpl in Hr;
        [|discriminate].
      destruct (Z.ltb_spec a max_attempts); inversion Hr; subst.
      * left. split; [reflexivity|]. exists a. auto.
      * right. split; [reflexivity|]. split; [reflexivity|].
        right. exists a. auto.
    + inversion Hr; subst. right. auto.
Qed.

End DrainOne.

(** ** The counters *)

Lemma balanced_intro (total s r f : Z) :
  (s + f + r = total)%Z -> (0 <= r)%Z -> balanced total s r f.
Proof. unfold balanced. lia. Qed.

Lemma counters_inv_init urls : counters_inv (init urls).
Proof.
  unfold counters_inv. simpl. rewrite Nat.add_0_r.
  split; [reflexivity|]. split; [reflexivity|]. constructor.
Qed.

Lemma counters_inv_submit url rest st :
  counters_inv st -> pending_urls st = url :: rest ->
  counters_inv (submit url rest st).
Proof.
  unfold counters_inv. intros (Hr & Hs & Hp) Hq. simpl.
  rewrite Hq in Hr. simpl in Hr.
  repeat split; try assumption.
  rewrite Hr, length_app. simpl. f_equal. lia.
Qed.

Lemma counters_inv_print st : counters_inv st -> counters_inv (print_progress st).
Proof.
  unfold counters_inv. intros (Hr & Hs & Hp). simpl.
  repeat split; try assumption.
  apply Forall_app. split; [assumption|].
  constructor; [|constructor].
  split; [reflexivity|]. apply balanced_intro; lia.
Qed.

Lemma counters_inv_drain_one lib output_dir max_attempts fw st st' :
  counters_inv st ->
  drain_one lib output_dir max_attempts fw st = Ret st' ->
  counters_inv st'.
Proof.
  destruct fw as [future w]. intros (Hr & Hs & Hp) Hd.
  apply drain_one_Ret in Hd
    as (success & error & url & futs & _ & Hpop & Hcase).
  apply pop_Permutation, Permutation_length in Hpop. simpl in Hpop.
  rewrite Hpop in Hr.
  destruct Hcase as [[_ ->]|[(_ & a & _ & _ & _ & ->)|(_ & -> & _)]];
    unfold counters_inv; simpl; repeat split; try assumption; try lia.
  rewrite length_app. simpl. lia.
Qed.

(** C4: at the head of the loop after any number of iterations, and on
    every progress line printed, succeeded + permanently failed + remaining
    is the total, remaining is not negative, and so succeeded + permanently
    failed is at most the total; when the loop has ended, succeeded +
    permanently failed is the total. *)
Theorem counters_always_balance
  (lib : UrlChecks) (output_dir : string) (max_attempts : Z)
  (env : nat -> nat -> option World) (urls : list string) (n : nat) (st : State) :
  iterate lib output_dir max_attempts env n 0 (init urls) = Ret st ->
  total_urls st = Z.of_nat (length urls)
  /\ balanced (total_urls st) (success_count st) (remaining_urls st) (fail_count st)
  /\ Forall (fun line : Z * Z * Z * Z =>
               let '(s, tot, r, f) := line in
               tot = total_urls st /\ balanced tot s r f) (printed st)
  /\ (loop_cond st = false ->
      (success_count st + fail_count st = total_urls st)%Z
      /\ remaining_urls st = 0%Z).
Proof.
  intros Hit.
  assert (Hinv : counters_inv st /\ total_urls st = Z.of_nat (length urls)).
  { revert Hit.
    apply (iterate_preserves lib output_dir max_attempts env
             (fun st => counters_inv st /\ total_urls st = Z.of_nat (length urls))).
    - intros url rest s [Hc Ht] Hq. split; [|exact Ht].
      apply counters_inv_submit; assumption.
    - intros [f w] s s' [Hc Ht] _ Hd. split.
      + eapply counters_inv_drain_one; eauto.
      + apply drain_one_Ret in Hd as (? & ? & ? & ? & _ & _ & Hcase).
        destruct Hcase as [[_ ->]|[(_ & a & _ & _ & _ & ->)|(_ & -> & _)]];
          exact Ht.
    - intros s [Hc Ht]. split; [|exact Ht]. apply counters_inv_print, Hc.
    - split; [apply counters_inv_init|reflexivity]. }
  destruct Hinv as [(Hr & Hs & Hp) Ht].
  split; [exact Ht|]. split; [apply balanced_intro; lia|].
  split; [exact Hp|].
  intros Hc. unfold loop_cond in Hc.
  apply orb_false_elim in Hc as [Hc1 Hc2].
  apply negb_false_iff, bool_decide_eq_true in Hc1, Hc2.
  rewrite Hc1, Hc2 in Hr. simpl in Hr. lia.
Qed.

Lemma counters_always_balance_witness :
  let st := {| success_count := 1; fail_count := 1; total_urls := 2;
               remaining_urls := 0; pending_urls := [];
               failed_forever_urls := ["http://b/2"]; future_to_url := [];
               url_to_attempts := url_to_attempts (init ["http://a/1"; "http://b/2"]);
               submitted := ["http://a/1"; "http://b/2"];
               printed := [(1, 2, 0, 1)%Z] |} in
  balanced (total_urls st) (success_count st) (remaining_urls st) (fail_count st).
Proof.
  intros st.
  refine (proj1 (proj2 (counters_always_balance lib0 "out" 5
    (fun _ f => Some (world_status (if Nat.eqb f 0 then 200 else 404)))
    ["http://a/1"; "http://b/2"] 3 st _))).
  vm_compute. reflexivity.
Defined.

(** ** No URL at two places *)

Lemma pop_in_flight future st url futs :
  pop future (future_to_url st) = Ret (url, futs) ->
  in_flight st ≡ₚ url :: futs.*2.
Proof.
  intros Hpop. unfold in_flight.
  rewrite (pop_Permutation _ _ _ _ Hpop). reflexivity.
Qed.

Lemma distinct_inv_init urls : NoDup urls -> distinct_inv (init urls).
Proof.
  unfold distinct_inv, in_flight. simpl. rewrite app_nil_r. auto.
Qed.

Lemma distinct_inv_submit url rest st :
  distinct_inv st -> pending_urls st = url :: rest ->
  distinct_inv (submit url rest st).
Proof.
  unfold distinct_inv, in_flight. intros Hn Hq. simpl.
  rewrite Hq in Hn. rewrite fmap_app. simpl.
  revert Hn. apply NoDup_Permutation_proper. solve_Permutation.
Qed.

Lemma distinct_inv_drain_one lib output_dir max_attempts fw st st' :
  distinct_inv st ->
  drain_one lib output_dir max_attempts fw st = Ret st' ->
  distinct_inv st'.
Proof.
  destruct fw as [future w]. unfold distinct_inv. intros Hn Hd.
  apply drain_one_Ret in Hd
    as (success & error & url & futs & _ & Hpop & Hcase).
  rewrite (pop_in_flight _ _ _ _ Hpop) in Hn.
  destruct Hcase as [[_ ->]|[(_ & a & _ & _ & _ & ->)|(_ & -> & _)]];
    unfold in_flight; simpl.
  - assert (Hperm : (pending_urls st ++ (url :: futs.*2) ++ failed_forever_urls st)%list
                    ≡ₚ url :: (pending_urls st ++ futs.*2 ++ failed_forever_urls st)%list)
      by solve_Permutation.
    rewrite Hperm in Hn. apply NoDup_cons in Hn as [_ Hn]. exact Hn.
  - revert Hn. apply NoDup_Permutation_proper. solve_Permutation.
  - revert Hn. apply NoDup_Permutation_proper. solve_Permutation.
Qed.

Lemma distinct_inv_failed st : distinct_inv st -> NoDup (failed_forever_urls st).
Proof.
  unfold distinct_inv. intros Hn.
  apply NoDup_app in Hn as (_ & _ & Hn).
  apply NoDup_app in Hn as (_ & _ & Hn). exact Hn.
Qed.

(** C6: when the input list has no duplicate, no URL appears twice in the
    list of permanent failures that [_download_images] returns; the same
    holds of the list at the head of the loop after any number of
    iterations. *)
Theorem failed_urls_are_distinct
  (lib : UrlChecks) (output_dir : string) (max_attempts max_workers : Z)
  (env : nat -> nat -> option World) (urls : list string) :
  NoDup urls ->
  (forall fuel failed,
     _download_images lib output_dir max_attempts max_workers env fuel urls
       = Some (Ret failed) ->
     NoDup failed)
  /\ (forall n st,
        iterate lib output_dir max_attempts env n 0 (init urls) = Ret st ->
        NoDup (failed_forever_urls st)).
Proof.
  intros Hurls. split.
  - intros fuel failed. unfold _download_images.
    destruct (ThreadPoolExecutor max_workers); [|discriminate].
    destruct (run_loop lib output_dir max_attempts env fuel 0 (init urls))
      as [[st|]|] eqn:Er; [|discriminate|discriminate].
    intros Hr; inversion Hr; subst.
    apply distinct_inv_failed.
    eapply (run_loop_preserves lib output_dir max_attempts env distinct_inv);
      [| | |apply distinct_inv_init, Hurls|exact Er].
    + apply distinct_inv_submit.
    + intros fw s s' Hs _. apply distinct_inv_drain_one, Hs.
    + auto.
  - intros n st Hit. apply distinct_inv_failed.
    eapply (iterate_preserves lib output_dir max_attempts env distinct_inv);
      [| | |apply distinct_inv_init, Hurls|exact Hit].
    + apply distinct_inv_submit.
    + intros fw s s' Hs _. apply distinct_inv_drain_one, Hs.
    + auto.
Qed.

Lemma failed_urls_are_distinct_witness :
  NoDup ["http://a/1"; "http://b/2"].
Proof.
  refine (proj1 (failed_urls_are_distinct lib0 "out" 5 8
            (fun _ _ => Some (world_status 404)) ["http://a/1"; "http://b/2"] _)
          1%nat _ _).
  - apply (bool_decide_unpack _). vm_compute. reflexivity.
  - vm_compute. reflexivity.
Defined.

(** * The retry rule *)

(** C1 (a failure is retried exactly when it is a transport error or an
    HTTP status 5xx, 408 or 429). The code breaks it for transport errors
    whose message begins with [HTTP]: line 85 takes every such message for
    an HTTP status. The [ReadTimeout] and [ConnectionError] of requests
    begin with [HTTPSConnectionPool(] or [HTTPConnectionPool(]. With
    [max_attempts = 5], a URL whose first fetch times out is recorded as a
    permanent failure after one attempt, although the rule of the
    specification retries it. *)
Theorem transport_error_beginning_with_HTTP_is_not_retried :
  let url := "https://example.com/a.png" in
  let w := world_raises read_timeout_message in
  spec_retryable (Transport read_timeout_message) = true
  /\ returned (download_image lib0 url "out" w)
       = Ret (false, Some (error_of (Transport read_timeout_message)))
  /\ retry_test (Some (error_of (Transport read_timeout_message))) = Ret false
  /\ match run_loop lib0 "out" 5 (fun _ _ => Some w) 1 0 (init [url]) with
     | Some (Ret st) =>
         failed_forever_urls st = [url]
         /\ submitted st = [url]
         /\ url_to_attempts st !! url = Some 1%Z
     | _ => False
     end.
Proof. vm_compute. repeat split. Qed.

(** * Exhaustion of the attempts *)

Lemma attempts_made_submit u url rest st :
  attempts_made u (submit url rest st)
  = (attempts_made u st + (if String.eqb u url then 1 else 0))%Z.
Proof.
  unfold attempts_made. simpl.
  rewrite List.filter_app, length_app. simpl.
  destruct (String.eqb u url); simpl; lia.
Qed.

Lemma init_attempts urls u :
  u ∈ urls -> url_to_attempts (init urls) !! u = Some 1%Z.
Proof.
  intros Hin. simpl.
  induction urls as [|x urls IH]; [inversion Hin|].
  simpl. destruct (decide (x = u)) as [->|Hne].
  - apply lookup_insert_eq.
  - rewrite lookup_insert_ne by exact Hne.
    apply IH. apply elem_of_cons in Hin as [->|Hin]; [congruence|exact Hin].
Qed.

Lemma futures_inv_submit url rest st :
  futures_inv st -> futures_inv (submit url rest st).
Proof.
  unfold futures_inv. intros Hf. simpl.
  apply Forall_app. split; [exact Hf|]. repeat constructor.
Qed.

Lemma pop_elem_of future d url d' :
  pop future d = Ret (url, d') ->
  (future, url) ∈ d /\ (forall p, p ∈ d' -> p ∈ d).
Proof.
  intros Hpop. apply pop_Permutation in Hpop. split.
  - rewrite Hpop. left.
  - intros p Hp. rewrite Hpop. right. exact Hp.
Qed.

Lemma futures_inv_drain_one lib output_dir max_attempts fw st st' :
  futures_inv st ->
  drain_one lib output_dir max_attempts fw st = Ret st' ->
  futures_inv st'.
Proof.
  destruct fw as [future w]. unfold futures_inv. intros Hf Hd.
  apply drain_one_Ret in Hd
    as (success & error & url & futs & _ & Hpop & Hcase).
  apply pop_elem_of in Hpop as [_ Hsub].
  assert (Hfuts : Forall (fun p : Future * string => arg_url p.1 = p.2) futs).
  { rewrite Forall_forall in Hf |- *. intros p Hp. apply Hf, Hsub, Hp. }
  destruct Hcase as [[_ ->]|[(_ & a & _ & _ & _ & ->)|(_ & -> & _)]];
    exact Hfuts.
Qed.

Section Exhaustion.

Variable lib : UrlChecks.
Variable output_dir : string.
Variable max_attempts : Z.
Variable env : nat -> nat -> option World.
Variable u : string.

Hypothesis max_attempts_positive : (1 <= max_attempts)%Z.
Hypothesis u_fails : always_fails_retryably lib output_dir env u.

Local Abbreviation Inv :=
  (fun st => distinct_inv st /\ futures_inv st /\ exhaust_inv max_attempts u st).

Lemma exhaust_init urls : NoDup urls -> u ∈ urls -> Inv (init urls).
Proof.
  intros Hn Hin. split; [apply distinct_inv_init, Hn|].
  split; [constructor|].
  exists 1%Z. split; [apply init_attempts, Hin|]. split; [lia|].
  left. split; [exact Hin|]. reflexivity.
Qed.

Lemma exhaust_submit url rest st :
  Inv st -> pending_urls st = url :: rest -> Inv (submit url rest st).
Proof.
  intros (Hd & Hf & a & Ha & Hrange & Hwhere) Hq.
  split; [apply distinct_inv_submit; assumption|].
  split; [apply futures_inv_submit, Hf|].
  exists a. split; [exact Ha|]. split; [exact Hrange|].
  rewrite attempts_made_submit.
  unfold distinct_inv in Hd. rewrite Hq in Hd.
  simpl in Hd. apply NoDup_cons in Hd as [Hhead Hd].
  unfold in_flight in *. simpl. rewrite fmap_app. simpl.
  destruct (String.eqb_spec u url) as [->|Hne].
  - destruct Hwhere as [[_ Hm]|[[Hin _]|[Hin _]]].
    + right; left. split; [set_solver|lia].
    + exfalso. apply Hhead. set_solver.
    + exfalso. apply Hhead. set_solver.
  - rewrite Hq in Hwhere.
    destruct Hwhere as [[Hin Hm]|[[Hin Hm]|[Hin Hm]]].
    + left. split; [set_solver|lia].
    + right; left. split; [set_solver|lia].
    + right; right. split; [exact Hin|]. split; [lia|tauto].
Qed.

Lemma exhaust_drain_one fw st st' :
  Inv st -> polled env fw ->
  drain_one lib output_dir max_attempts fw st = Ret st' -> Inv st'.
Proof.
  destruct fw as [future w].
  intros (Hd & Hf & a & Ha & Hrange & Hwhere) [t Hpoll] Hdrain.
  split; [eapply distinct_inv_drain_one; eauto|].
  split; [eapply futures_inv_drain_one; eauto|].
  apply drain_one_Ret in Hdrain
    as (success & error & url & futs & Hres & Hpop & Hcase).
  pose proof (pop_in_flight _ _ _ _ Hpop) as Hfl.
  apply pop_elem_of in Hpop as [Hentry _].
  unfold futures_inv in Hf. rewrite Forall_forall in Hf.
  specialize (Hf _ Hentry). simpl in Hf.
  unfold distinct_inv in Hd. rewrite Hfl in Hd.
  assert (Hmem : u ∈ in_flight st <-> u ∈ url :: futs.*2)
    by (rewrite Hfl; reflexivity).
  assert (Hperm : (pending_urls st ++ (url :: futs.*2) ++ failed_forever_urls st)%list
                  ≡ₚ url :: (pending_urls st ++ futs.*2 ++ failed_forever_urls st)%list)
    by solve_Permutation.
  rewrite Hperm in Hd. apply NoDup_cons in Hd as [Hfresh Hd].
  destruct (decide (url = u)) as [->|Hne].
  - (* the drained future is a fetch of [u] *)
    destruct Hwhere as [[Hin _]|[[_ Hm]|[Hin _]]];
      [exfalso; apply Hfresh; set_solver| |exfalso; apply Hfresh; set_solver].
    destruct (u_fails t (fid future) w Hpoll) as (err & Herr & Htest).
    unfold future_result in Hres. simpl in Hpoll. rewrite Hf in Hres.
    rewrite Herr in Hres. inversion Hres; subst success error.
    destruct Hcase as [[Hs _]|[(_ & a' & _ & Ha' & Hlt & ->)
                              |(_ & -> & [Hno|(a' & _ & Ha' & Hge)])]].
    + discriminate.
    + rewrite Ha in Ha'. inversion Ha'; subst a'.
      exists (a + 1)%Z. simpl. split; [apply lookup_insert_eq|].
      split; [lia|]. left. split; [set_solver|].
      unfold attempts_made in *. simpl. lia.
    + congruence.
    + rewrite Ha in Ha'. inversion Ha'; subst a'.
      exists a. simpl. split; [exact Ha|]. split; [lia|].
      right; right. split; [set_solver|].
      unfold attempts_made in *. simpl. split; lia.
  - (* the drained future is a fetch of another URL *)
    assert (Hwhere' :
      (u ∈ pending_urls st /\ attempts_made u st = (a - 1)%Z)
      \/ (u ∈ futs.*2 /\ attempts_made u st = a)
      \/ (u ∈ failed_forever_urls st /\ attempts_made u st = a /\ a = max_attempts)).
    { destruct Hwhere as [Hw|[[Hin Hm]|Hw]]; [auto| |auto].
      right; left. split; [|exact Hm].
      apply Hmem in Hin. set_solver. }
    destruct Hcase as [[_ ->]|[(_ & a' & _ & _ & _ & ->)|(_ & -> & _)]];
      exists a; unfold attempts_made, in_flight in *; simpl.
    + split; [exact Ha|]. split; [exact Hrange|]. exact Hwhere'.
    + split; [rewrite lookup_insert_ne by exact Hne; exact Ha|].
      split; [exact Hrange|].
      destruct Hwhere' as [[Hin Hm]|[Hw|Hw]]; [|auto|auto].
      left. split; [set_solver|exact Hm].
    + split; [exact Ha|]. split; [exact Hrange|].
      destruct Hwhere' as [Hw|[Hw|[Hin Hm]]]; [auto|auto|].
      right; right. split; [set_solver|exact Hm].
Qed.

Lemma exhaust_print st : Inv st -> Inv (print_progress st).
Proof. intros H. exact H. Qed.

Lemma exhaust_final st :
  Inv st -> loop_cond st = false ->
  attempts_made u st = max_attempts /\ u ∈ failed_forever_urls st.
Proof.
  intros (_ & _ & a & _ & _ & Hwhere) Hc.
  unfold loop_cond in Hc. apply orb_false_elim in Hc as [Hc1 Hc2].
  apply negb_false_iff, bool_decide_eq_true in Hc1, Hc2.
  unfold in_flight in Hwhere. rewrite Hc1, Hc2 in Hwhere.
  destruct Hwhere as [[Hin _]|[[Hin _]|(Hin & Hm & ->)]];
    [inversion Hin|inversion Hin|auto].
Qed.

End Exhaustion.

(** The exhaustion law for the failures that the test of lines 81-85 finds
    retryable: with [max_attempts >= 1] and an input list without
    duplicates, a URL all of whose fetches fail with such an error has had
    exactly [max_attempts] fetches submitted when the loop ends, that is
    [max_attempts - 1] retries after the first, and is then in the list of
    permanent failures. *)
Lemma retryable_url_gets_max_attempts_fetches
  (lib : UrlChecks) (output_dir : string) (max_attempts : Z)
  (env : nat -> nat -> option World) (urls : list string) (u : string)
  (fuel : nat) (st : State) :
  (1 <= max_attempts)%Z ->
  NoDup urls ->
  u ∈ urls ->
  always_fails_retryably lib output_dir env u ->
  run_loop lib output_dir max_attempts env fuel 0 (init urls) = Some (Ret st) ->
  attempts_made u st = max_attempts
  /\ (attempts_made u st - 1 = max_attempts - 1)%Z
  /\ u ∈ failed_forever_urls st.
Proof.
  intros Hmax Hn Hin Hfails Hrun.
  apply (run_loop_preserves lib output_dir max_attempts env
           (fun st => distinct_inv st /\ futures_inv st
                      /\ exhaust_inv max_attempts u st)) in Hrun
    as [Hinv Hc].
  - destruct (exhaust_final max_attempts u st Hinv Hc) as [Hm Hf].
    split; [exact Hm|]. split; [lia|exact Hf].
  - intros url rest s Hs Hq. eapply exhaust_submit; eauto.
  - intros fw s s' Hs Hp Hd. eapply exhaust_drain_one; eauto.
  - intros s Hs. exact Hs.
  - apply exhaust_init; assumption.
Qed.

Example retryable_url_gets_max_attempts_fetches_503 :
  let st := {| success_count := 0; fail_count := 1; total_urls := 1;
               remaining_urls := 0; pending_urls := [];
               failed_forever_urls := ["http://a/1"]; future_to_url := [];
               url_to_attempts := <["http://a/1" := 3%Z]> ∅;
               submitted := ["http://a/1"; "http://a/1"; "http://a/1"];
               printed := [(0, 1, 1, 0); (0, 1, 1, 0); (0, 1, 0, 1)]%Z |} in
  attempts_made "http://a/1" st = 3%Z
  /\ (attempts_made "http://a/1" st - 1 = 3 - 1)%Z
  /\ "http://a/1" ∈ failed_forever_urls st.
Proof.
  intros st.
  apply (retryable_url_gets_max_attempts_fetches lib0 "out" 3
           (fun _ _ => Some (world_status 503)) ["http://a/1"] "http://a/1" 3%nat st).
  - lia.
  - apply (bool_decide_unpack _). vm_compute. reflexivity.
  - apply (bool_decide_unpack _). vm_compute. reflexivity.
  - intros t f w Hw. inversion Hw; subst w.
    exists "HTTP 503". split; vm_compute; reflexivity.
  - vm_compute. reflexivity.
Qed.

(** C3 (a URL that always fails with a retryable reason gets exactly
    [max_attempts] fetches). The code breaks it for the transport errors
    that line 85 takes for HTTP statuses, the defect of C1: with
    [max_attempts = 5], a URL every fetch of which times out, a transport
    error and so a retryable reason, gets one fetch, not five, before it is
    recorded as a permanent failure. *)
Theorem timed_out_url_gets_one_fetch :
  let url := "https://example.com/a.png" in
  let env := fun _ _ : nat => Some (world_raises read_timeout_message) in
  (forall t f w, env t f = Some w ->
     returned (download_image lib0 url "out" w)
       = Ret (false, Some (error_of (Transport read_timeout_message))))
  /\ spec_retryable (Transport read_timeout_message) = true
  /\ match run_loop lib0 "out" 5 env 1 0 (init [url]) with
     | Some (Ret st) =>
         attempts_made url st = 1%Z
         /\ attempts_made url st <> 5%Z
         /\ failed_forever_urls st = [url]
     | _ => False
     end.
Proof.
  split; [|split].
  - intros t f w Hw. inversion Hw; subst. reflexivity.
  - reflexivity.
  - vm_compute. repeat split. discriminate.
Qed.


(** * Termination of the loop *)

Lemma sum_list_with_le {A} (f g : A -> nat) (l : list A) :
  (forall x, (f x <= g x)%nat) -> (sum_list_with f l <= sum_list_with g l)%nat.
Proof.
  intros Hle. induction l as [|x l IH]; simpl; [lia|].
  specialize (Hle x). lia.
Qed.

(** What the dispatch of lines 67-70 leaves: an empty queue, and every
    URL that was pending in flight, behind those already there. *)
Lemma submit_all_spec pending st :
  pending_urls st = pending ->
  let st' := submit_all pending st in
  pending_urls st' = []
  /\ in_flight st' = (in_flight st ++ pending)%list
  /\ url_to_attempts st' = url_to_attempts st
  /\ length (future_to_url st') = (length (future_to_url st) + length pending)%nat
  /\ (pending = [] -> st' = st).
Proof.
  revert st. induction pending as [|url rest IH]; intros st Hq; simpl.
  - rewrite app_nil_r, Nat.add_0_r. auto.
  - destruct (IH (submit url rest st) eq_refl) as (H1 & H2 & H3 & H4 & _).
    rewrite H1, H2, H3, H4. unfold in_flight. simpl.
    rewrite fmap_app, length_app, <- app_assoc. simpl.
    repeat split; try reflexivity; try lia. discriminate.
Qed.

Lemma work_left_submit_all max_attempts st :
  work_left max_attempts (submit_all (pending_urls st) st) = work_left max_attempts st.
Proof.
  destruct (submit_all_spec (pending_urls st) st eq_refl) as (H1 & H2 & H3 & _).
  unfold work_left. rewrite H1, H2, H3. simpl.
  apply sum_list_with_Permutation_proper. solve_Permutation.
Qed.

Lemma budget_positive max_attempts m url : (1 <= budget max_attempts m url)%nat.
Proof. unfold budget. lia. Qed.

Lemma budget_retry max_attempts m url a x :
  m !! url = Some a -> (a < max_attempts)%Z ->
  (budget max_attempts (<[url := (a + 1)%Z]> m) x <= budget max_attempts m x)%nat
  /\ (S (budget max_attempts (<[url := (a + 1)%Z]> m) url)
      = budget max_attempts m url)%nat.
Proof.
  intros Ha Hlt. unfold budget. split.
  - destruct (decide (url = x)) as [->|Hne].
    + rewrite lookup_insert_eq, Ha. simpl. lia.
    + rewrite lookup_insert_ne by exact Hne. lia.
  - rewrite lookup_insert_eq, Ha. simpl. lia.
Qed.

Section Progress.

Variable lib : UrlChecks.
Variable output_dir : string.
Variable max_attempts : Z.
Variable env : nat -> nat -> option World.

(** Draining a future takes at least one try off the work left. *)
Lemma drain_one_decreases fw st st' :
  drain_one lib output_dir max_attempts fw st = Ret st' ->
  (work_left max_attempts st' < work_left max_attempts st)%nat.
Proof.
  destruct fw as [future w]. intros Hd.
  apply drain_one_Ret in Hd
    as (success & error & url & futs & _ & Hpop & Hcase).
  pose proof (pop_in_flight _ _ _ _ Hpop) as Hfl.
  unfold work_left. rewrite Hfl.
  pose proof (budget_positive max_attempts (url_to_attempts st) url) as Hpos.
  destruct Hcase as [[_ ->]|[(_ & a & _ & Ha & Hlt & ->)|(_ & -> & _)]];
    unfold in_flight;
    cbn [on_success on_retry on_failure pending_urls future_to_url
         url_to_attempts];
    rewrite !sum_list_with_app; cbn [sum_list_with].
  - lia.
  - destruct (budget_retry max_attempts _ url a url Ha Hlt) as [_ Hurl].
    pose proof (sum_list_with_le
                  (budget max_attempts (<[url := (a + 1)%Z]> (url_to_attempts st)))
                  (budget max_attempts (url_to_attempts st)) (pending_urls st)
                  (fun x => proj1 (budget_retry max_attempts _ url a x Ha Hlt))).
    pose proof (sum_list_with_le
                  (budget max_attempts (<[url := (a + 1)%Z]> (url_to_attempts st)))
                  (budget max_attempts (url_to_attempts st)) (futs.*2)
                  (fun x => proj1 (budget_retry max_attempts _ url a x Ha Hlt))).
    lia.
  - lia.
Qed.

Lemma drain_decreases done st st' :
  drain lib output_dir max_attempts done st = Ret st' ->
  (work_left max_attempts st' <= work_left max_attempts st)%nat
  /\ (done <> [] -> (work_left max_attempts st' < work_left max_attempts st)%nat).
Proof.
  revert st. induction done as [|fw done IH]; intros st; simpl.
  - intros Hr; inversion Hr; subst. split; [lia|congruence].
  - destruct (drain_one lib output_dir max_attempts fw st) as [st1|] eqn:E;
      simpl; [|discriminate].
    intros Hr. apply IH in Hr as [Hle _].
    apply drain_one_decreases in E. split; [lia|intros _; lia].
Qed.

Lemma work_left_print st :
  work_left max_attempts (print_progress st) = work_left max_attempts st.
Proof. reflexivity. Qed.

(** An iteration that drains nothing only prints; any other iteration
    takes work off. *)
Lemma loop_body_progress t st st' :
  loop_body lib output_dir max_attempts env t st = Ret st' ->
  let st0 := submit_all (pending_urls st) st in
  (done_futures env t st0 = [] /\ st' = print_progress st0)
  \/ (work_left max_attempts st' < work_left max_attempts st)%nat.
Proof.
  intros Hr st0. unfold loop_body in Hr. fold st0 in Hr.
  destruct (drain lib output_dir max_attempts (done_futures env t st0) st0)
    as [st1|] eqn:E; simpl in Hr; [|discriminate].
  inversion Hr; subst st'.
  destruct (done_futures env t st0) as [|fw done] eqn:Ed.
  - left. simpl in E. inversion E; subst. auto.
  - right. apply drain_decreases in E as [_ Hlt].
    rewrite work_left_print.
    unfold st0 in Hlt. rewrite work_left_submit_all in Hlt.
    apply Hlt. discriminate.
Qed.

End Progress.

Section Termination.

Variable lib : UrlChecks.
Variable output_dir : string.
Variable max_attempts : Z.
Variable env : nat -> nat -> option World.

Local Abbreviation body := (loop_body lib output_dir max_attempts env).
Local Abbreviation run := (run_loop lib output_dir max_attempts env).
Local Abbreviation halts := (terminates lib output_dir max_attempts env).

Lemma loop_body_after_submit t st :
  body t st = body t (submit_all (pending_urls st) st).
Proof.
  unfold loop_body.
  destruct (submit_all_spec (pending_urls st) st eq_refl) as (Hq & _).
  rewrite Hq. reflexivity.
Qed.

Lemma halts_raise t st e :
  loop_cond st = true -> body t st = Raise e -> halts t st.
Proof.
  intros Hc Hb. exists 1%nat, (Raise e). simpl. rewrite Hc, Hb. reflexivity.
Qed.

Lemma halts_step t st st' :
  loop_cond st = true -> body t st = Ret st' -> halts (S t) st' -> halts t st.
Proof.
  intros Hc Hb (fuel & r & Hr). exists (S fuel), r. simpl.
  rewrite Hc, Hb. exact Hr.
Qed.

Lemma halts_after_submit t st :
  loop_cond st = true ->
  halts t (submit_all (pending_urls st) st) -> halts t st.
Proof.
  intros Hc (fuel & r & Hr).
  destruct (loop_cond (submit_all (pending_urls st) st)) eqn:Hc0.
  - destruct fuel as [|fuel]; simpl in Hr; rewrite Hc0 in Hr; [discriminate|].
    exists (S fuel), r. simpl. rewrite Hc, loop_body_after_submit. exact Hr.
  - exfalso.
    destruct (submit_all_spec (pending_urls st) st eq_refl) as (_ & _ & _ & Hl & _).
    unfold loop_cond in Hc, Hc0.
    apply orb_false_elim in Hc0 as [_ Hf].
    apply negb_false_iff, bool_decide_eq_true in Hf.
    rewrite Hf in Hl. simpl in Hl.
    destruct (pending_urls st); [|simpl in Hl; lia].
    destruct (future_to_url st); [|simpl in Hl; lia].
    discriminate.
Qed.

Lemma done_futures_nil_head t st f0 url0 rest :
  future_to_url st = (f0, url0) :: rest ->
  done_futures env t st = [] -> env t (fid f0) = None.
Proof.
  unfold done_futures. intros -> Hd. simpl in Hd.
  destruct (env t (fid f0)); [discriminate|reflexivity].
Qed.

(** Once everything is dispatched, the loop polls until the oldest
    future in flight is done, unless another is done before; either way
    work is taken off. *)
Lemma halts_when_first_completes d :
  forall t st f0 url0 rest,
    pending_urls st = [] ->
    future_to_url st = (f0, url0) :: rest ->
    env (t + d)%nat (fid f0) <> None ->
    (forall t' st',
       (work_left max_attempts st' < work_left max_attempts st)%nat ->
       halts t' st') ->
    halts t st.
Proof.
  induction d as [|d IH]; intros t st f0 url0 rest Hq Hf Hdone Hless;
    (assert (Hc : loop_cond st = true)
       by (unfold loop_cond; rewrite Hf; apply orb_true_r));
    (destruct (body t st) as [st'|e] eqn:Hb; [|eapply halts_raise; eauto]);
    (apply (halts_step t st st' Hc Hb));
    (apply loop_body_progress in Hb; rewrite Hq in Hb; simpl in Hb;
     destruct Hb as [[Hnil ->]|Hlt]; [|apply Hless, Hlt]).
  - exfalso. apply Hdone. rewrite Nat.add_0_r.
    eapply done_futures_nil_head; eauto.
  - apply (IH (S t) (print_progress st) f0 url0 rest); try assumption.
    rewrite Nat.add_succ_comm. exact Hdone.
Qed.

Hypothesis fair : every_fetch_completes env.

Lemma halts_by_work n :
  forall t st, (work_left max_attempts st < n)%nat -> halts t st.
Proof.
  induction n as [|n IH]; intros t st Hn; [lia|].
  destruct (loop_cond st) eqn:Hc.
  - apply halts_after_submit; [exact Hc|].
    set (st0 := submit_all (pending_urls st) st).
    destruct (submit_all_spec (pending_urls st) st eq_refl)
      as (Hq & _ & _ & Hl & _). fold st0 in Hq, Hl.
    destruct (future_to_url st0) as [|[f0 url0] rest] eqn:Hf.
    + exfalso. simpl in Hl. unfold loop_cond in Hc.
      destruct (pending_urls st); [|simpl in Hl; lia].
      destruct (future_to_url st); [|simpl in Hl; lia].
      discriminate.
    + destruct (fair (fid f0) t) as (t' & Hle & Hdone).
      apply (halts_when_first_completes (t' - t) t st0 f0 url0 rest Hq Hf).
      * replace (t + (t' - t))%nat with t' by lia. exact Hdone.
      * intros t1 st1 Hlt. apply IH.
        unfold st0 in Hlt. rewrite work_left_submit_all in Hlt. lia.
  - exists 0%nat, (Ret st). simpl. rewrite Hc. reflexivity.
Qed.

Lemma loop_halts t st : halts t st.
Proof. apply (halts_by_work (S (work_left max_attempts st))). lia. Qed.

End Termination.

(** C9: when every dispatched fetch eventually completes, the loop of
    [_download_images] comes to an end on every input list, for every
    [max_attempts]: with enough fuel it returns the list of failures or
    raises. Each drained item is either finished, by a success or a
    permanent failure, or put back in the queue with its attempt count
    raised by one and still at most [max_attempts]; either way the work
    left goes down. *)
Theorem download_loop_terminates
  (lib : UrlChecks) (output_dir : string) (max_attempts max_workers : Z)
  (env : nat -> nat -> option World) (urls : list string) :
  every_fetch_completes env ->
  (exists fuel r,
     _download_images lib output_dir max_attempts max_workers env fuel urls = Some r)
  /\ (forall future w st st',
        drain_one lib output_dir max_attempts (future, w) st = Ret st' ->
        (work_left max_attempts st' < work_left max_attempts st)%nat
        /\ exists url futs,
             pop future (future_to_url st) = Ret (url, futs)
             /\ (st' = on_success futs st
                 \/ st' = on_failure url futs st
                 \/ exists a,
                      url_to_attempts st !! url = Some a
                      /\ st' = on_retry url a futs st
                      /\ url_to_attempts st' !! url = Some (a + 1)%Z
                      /\ (a < a + 1 <= max_attempts)%Z)).
Proof.
  intros Hfair. split.
  - unfold _download_images.
    destruct (ThreadPoolExecutor max_workers) as [[]|e].
    + destruct (loop_halts lib output_dir max_attempts env Hfair 0 (init urls))
        as (fuel & r & Hr).
      exists fuel. rewrite Hr. destruct r; eauto.
    + exists 0%nat. eauto.
  - intros future w st st' Hd. split.
    + eapply drain_one_decreases; eauto.
    + apply drain_one_Ret in Hd
        as (success & error & url & futs & _ & Hpop & Hcase).
      exists url, futs. split; [exact Hpop|].
      destruct Hcase as [[_ ->]|[(_ & a & _ & Ha & Hlt & ->)|(_ & -> & _)]];
        [auto| |auto].
      right; right. exists a. split; [exact Ha|]. split; [reflexivity|].
      split; [apply lookup_insert_eq|lia].
Qed.

Lemma download_loop_terminates_witness :
  exists fuel r,
    _download_images lib0 "out" 3 8 (fun _ _ => Some (world_status 503)) fuel
      ["http://a/1"; "http://b/2"] = Some r.
Proof.
  apply (download_loop_terminates lib0 "out" 3 8
           (fun _ _ => Some (world_status 503)) ["http://a/1"; "http://b/2"]).
  intros f t. exists t. split; [lia|discriminate].
Defined.

(** * Dispatch and the bound on concurrency *)

Lemma running_le_threads (l : list (option nat)) :
  (length (omap id l) <= length l)%nat.
Proof.
  induction l as [|[x|] l IH]; cbn in *; lia.
Qed.

Lemma pool_step_threads e p p' :
  Pool.step e p = Some p' ->
  Pool.max_workers p' = Pool.max_workers p
  /\ ((Z.of_nat (length (Pool.threads p)) <= Pool.max_workers p)%Z ->
      (Z.of_nat (length (Pool.threads p')) <= Pool.max_workers p')%Z).
Proof.
  destruct e as [f|i|i]; simpl.
  - intros Hs; inversion Hs; subst. unfold Pool.adjust_thread_count. simpl.
    destruct (Pool.idle_semaphore p); simpl; [|auto].
    destruct (Z.ltb_spec (Z.of_nat (length (Pool.threads p))) (Pool.max_workers p));
      simpl; [|auto].
    split; [reflexivity|]. rewrite length_app. simpl. lia.
  - destruct (Pool.threads p !! i) as [[|]|]; try discriminate.
    destruct (Pool.work_queue p); [discriminate|].
    intros Hs; inversion Hs; subst. simpl. rewrite length_insert. auto.
  - destruct (Pool.threads p !! i) as [[|]|]; try discriminate.
    intros Hs; inversion Hs; subst. simpl. rewrite length_insert. auto.
Qed.

(** Whatever is submitted and however the threads are scheduled, the pool
    runs at most [max_workers] calls at once. *)
Lemma pool_running_bounded n events p0 p :
  Pool.create n = Ret p0 -> Pool.run events p0 = Some p ->
  (Z.of_nat (length (Pool.running p)) <= n)%Z.
Proof.
  intros Hc Hrun.
  assert (H0 : Pool.max_workers p0 = n
               /\ (Z.of_nat (length (Pool.threads p0)) <= Pool.max_workers p0)%Z).
  { unfold Pool.create in Hc. destruct (Z.leb_spec n 0); inversion Hc; subst.
    simpl. split; [reflexivity|lia]. }
  clear Hc. revert p0 H0 Hrun.
  induction events as [|e events IH]; intros p0 [Hm Hl] Hrun; simpl in Hrun.
  - inversion Hrun; subst.
    pose proof (running_le_threads (Pool.threads p)). unfold Pool.running. lia.
  - destruct (Pool.step e p0) as [p1|] eqn:Es; [|discriminate].
    apply pool_step_threads in Es as [Hm1 Hl1].
    apply (IH p1); [|exact Hrun]. split; [congruence|auto].
Qed.

(** The queue and the dictionary of futures never hold more items than
    there are input URLs. *)
Lemma live_items_bounded lib output_dir max_attempts env urls n st :
  iterate lib output_dir max_attempts env n 0 (init urls) = Ret st ->
  (length (pending_urls st) + length (future_to_url st) <= length urls)%nat.
Proof.
  apply (iterate_preserves lib output_dir max_attempts env
           (fun st => (length (pending_urls st) + length (future_to_url st)
                       <= length urls)%nat)).
  - intros url rest s Hs Hq. rewrite Hq in Hs. simpl in *.
    rewrite length_app. simpl. lia.
  - intros [f w] s s' Hs _ Hd.
    apply drain_one_Ret in Hd as (? & ? & url & futs & _ & Hpop & Hcase).
    apply pop_Permutation, Permutation_length in Hpop. simpl in Hpop.
    destruct Hcase as [[_ ->]|[(_ & a & _ & _ & _ & ->)|(_ & -> & _)]];
      simpl; try rewrite length_app; simpl; lia.
  - auto.
  - simpl. lia.
Qed.

(** C5, as stated, fails: with three URLs and [max_workers = 1], after the
    first iteration, in which no fetch has completed yet, three fetches are
    in flight. *)
Lemma three_in_flight_with_one_worker :
  let urls := ["http://a/1"; "http://b/2"; "http://c/3"] in
  ThreadPoolExecutor 1 = Ret tt
  /\ match iterate lib0 "out" 5 (fun _ _ => None) 1 0 (init urls) with
     | Ret st => in_flight st = urls /\ (1 < Z.of_nat (length (in_flight st)))%Z
     | Raise _ => False
     end.
Proof. vm_compute. repeat split. Qed.

(** C5, amended: the control loop does not bound dispatch. Each iteration
    submits every pending URL to the pool, whatever the number of fetches
    in flight, so the fetches submitted and not yet drained are bounded by
    the number of input URLs only. The bound on simultaneous execution is
    the pool's: created with [max_workers], it never runs more than
    [max_workers] calls at once, whatever is submitted to it. *)
Theorem dispatch_is_unbounded_pool_is_bounded
  (lib : UrlChecks) (output_dir : string) (max_attempts max_workers : Z)
  (env : nat -> nat -> option World) :
  (forall st,
     let st' := submit_all (pending_urls st) st in
     pending_urls st' = []
     /\ in_flight st' = (in_flight st ++ pending_urls st)%list)
  /\ (forall urls n st,
        iterate lib output_dir max_attempts env n 0 (init urls) = Ret st ->
        (length (in_flight st) <= length urls)%nat)
  /\ (forall events p0 p,
        Pool.create max_workers = Ret p0 ->
        Pool.run events p0 = Some p ->
        (Z.of_nat (length (Pool.running p)) <= max_workers)%Z).
Proof.
  split; [|split].
  - intros st st'.
    destruct (submit_all_spec (pending_urls st) st eq_refl) as (H1 & H2 & _).
    auto.
  - intros urls n st Hit. apply live_items_bounded in Hit.
    unfold in_flight. rewrite length_fmap. lia.
  - intros events p0 p. apply pool_running_bounded.
Qed.

Lemma dispatch_is_unbounded_pool_is_bounded_witness :
  let p := {| Pool.max_workers := 1; Pool.work_queue := [1; 2]%nat;
              Pool.idle_semaphore := 0; Pool.threads := [Some 0%nat] |} in
  (Z.of_nat (length (Pool.running p)) <= 1)%Z.
Proof.
  intros p.
  refine (proj2 (proj2 (dispatch_is_unbounded_pool_is_bounded lib0 "out" 5 1
                          (fun _ _ => None)))
            [Pool.Submit 0; Pool.Submit 1; Pool.Take 0; Pool.Submit 2]
            {| Pool.max_workers := 1; Pool.work_queue := [];
               Pool.idle_semaphore := 0; Pool.threads := [] |} p _ _).
  - reflexivity.
  - reflexivity.
Defined.

(** * The file written by a fetch *)

Lemma break_prefix_clean (p : ascii -> bool) (s : string) :
  Str.forallb (fun a => negb (p a)) (Str.break p s).1 = true.
Proof.
  induction s as [|a s IH]; simpl; [reflexivity|].
  destruct (p a) eqn:Ea; simpl; [reflexivity|].
  destruct (Str.break p s) as [x y]. simpl in *. rewrite Ea, IH. reflexivity.
Qed.

Lemma contains_app (c : ascii) (s1 s2 : string) :
  Str.contains c (s1 ++ s2) = Str.contains c s1 || Str.contains c s2.
Proof.
  induction s1 as [|a s1 IH]; simpl; [reflexivity|].
  destruct (Ascii.eqb a c); [reflexivity|exact IH].
Qed.

Lemma not_delim_no_slash (s : string) :
  Str.forallb (fun a => negb (Url.is_netloc_delim a)) s = true ->
  Str.contains Url.slash s = false.
Proof.
  induction s as [|a s IH]; simpl; [reflexivity|].
  intros Hs. apply andb_true_iff in Hs as [Ha Hs].
  unfold Url.is_netloc_delim in Ha.
  destruct (Ascii.eqb a Url.slash); [discriminate|]. apply IH, Hs.
Qed.

Lemma split_no_separator (c : ascii) (s x : string) :
  x ∈ Str.split c s -> Str.contains c x = false.
Proof.
  revert x. induction s as [|a s IH]; simpl; intros x Hx.
  - apply list_elem_of_singleton in Hx as ->. reflexivity.
  - destruct (Ascii.eqb a c) eqn:Ea.
    + apply elem_of_cons in Hx as [->|Hx]; [reflexivity|apply IH, Hx].
    + destruct (Str.split c s) as [|y l].
      * apply list_elem_of_singleton in Hx as ->. simpl. rewrite Ea. reflexivity.
      * apply elem_of_cons in Hx as [->|Hx].
        -- simpl. rewrite Ea. apply IH. left.
        -- apply IH. right. exact Hx.
Qed.

Lemma path_name_no_slash (p : string) :
  Str.contains Url.slash (path_name p) = false.
Proof.
  unfold path_name.
  set (l := List.filter _ _).
  assert (Hl : forall x, x ∈ l -> Str.contains Url.slash x = false).
  { intros x Hx. apply list_elem_of_In, List.filter_In in Hx as [Hx _].
    eapply split_no_separator. apply list_elem_of_In. exact Hx. }
  clearbody l. induction l as [|x l IH]; [reflexivity|].
  destruct l as [|y l]; [apply Hl; left|].
  change (List.last (x :: y :: l) EmptyString) with (List.last (y :: l) EmptyString).
  apply IH. intros z Hz. apply Hl. right. exact Hz.
Qed.

Lemma urlsplit_netloc_no_slash lib url sch nl p q f :
  Url.urlsplit lib url = Ret (sch, nl, p, q, f) ->
  Str.contains Url.slash nl = false.
Proof.
  unfold Url.urlsplit.
  destruct (Url.split_scheme _) as [sch' url'].
  destruct (Str.startswith "//" url').
  - unfold Url.splitnetloc.
    pose proof (break_prefix_clean Url.is_netloc_delim (Str.tail (Str.tail url')))
      as Hclean.
    destruct (Str.break Url.is_netloc_delim (Str.tail (Str.tail url')))
      as [nl' rest]. simpl in Hclean.
    apply not_delim_no_slash in Hclean.
    destruct (_ || _); simpl; [discriminate|].
    destruct (_ && _); simpl.
    + destruct (Url.check_bracketed_netloc lib nl'); simpl; [|discriminate].
      destruct (Str.partition Url.hash rest) as [[? ?] ?].
      destruct (Str.partition Url.qmark _) as [[? ?] ?].
      destruct (Url.checknetloc lib nl'); simpl; [|discriminate].
      intros Hr; inversion Hr; subst. exact Hclean.
    + destruct (Str.partition Url.hash rest) as [[? ?] ?].
      destruct (Str.partition Url.qmark _) as [[? ?] ?].
      destruct (Url.checknetloc lib nl'); simpl; [|discriminate].
      intros Hr; inversion Hr; subst. exact Hclean.
  - simpl.
    destruct (Str.partition Url.hash url') as [[? ?] ?].
    destruct (Str.partition Url.qmark _) as [[? ?] ?].
    unfold Url.checknetloc. simpl.
    intros Hr; inversion Hr; subst. reflexivity.
Qed.

(** The file name of lines 26-29 is a single path component: it has no
    [/], so [output_dir / filename] is an entry of [output_dir]. *)
Lemma filename_no_slash lib url parsed_url :
  Url.urlparse lib url = Ret parsed_url ->
  Str.contains Url.slash (filename_of parsed_url) = false.
Proof.
  intros Hp. unfold filename_of.
  destruct (Str.is_empty _); [|apply path_name_no_slash].
  rewrite contains_app. apply orb_false_intro; [|reflexivity].
  unfold Url.urlparse in Hp.
  destruct (Url.urlsplit lib url) as [[[[[sch nl] p] q] f]|] eqn:Es;
    simpl in Hp; [|discriminate].
  apply urlsplit_netloc_no_slash in Es.
  destruct (_ && _); [destruct (Url.splitparams p)|];
    inversion Hp; subst; exact Es.
Qed.

(** A fetch writes a file exactly when it succeeds: then it writes one
    file, in the storage directory, named after the last segment of the
    path of the URL, or after its netloc followed by [.html] when the path
    has no segment; a fetch that does not succeed writes nothing. *)
Lemma download_image_written lib url dir w :
  match returned (download_image lib url dir w) with
  | Ret (true, _) =>
      exists parsed_url content,
        Url.urlparse lib url = Ret parsed_url
        /\ requests_get w url = Responded 200 content
        /\ written (download_image lib url dir w)
           = [({| parent := dir; name := filename_of parsed_url |}, content)]
  | _ => written (download_image lib url dir w) = []
  end.
Proof.
  destruct (Url.urlparse lib url) as [parsed_url|e] eqn:Ep.
  - rewrite (download_image_cases lib url dir w parsed_url Ep). cbv zeta.
    destruct (requests_get w url) as [c content|e] eqn:Eg; [|reflexivity].
    destruct (Z.eqb_spec c 200) as [->|Hne]; [|reflexivity].
    destruct (write_bytes w _ content); [reflexivity|].
    simpl. exists parsed_url, content. auto.
  - unfold download_image. rewrite Ep. reflexivity.
Qed.


(** * Soundness of the bookkeeping *)

Lemma sound_inv_init urls : sound_inv urls (init urls).
Proof.
  unfold sound_inv, futures_inv, in_flight. simpl.
  split; [constructor|]. split; [constructor|].
  split; [intros f Hf; inversion Hf|].
  split; [intros u Hu; change (is_Some (url_to_attempts (init urls) !! u));
          rewrite (init_attempts urls u Hu); eauto|].
  split; [intros u Hu; rewrite app_nil_r in Hu; exact Hu|].
  split; [reflexivity|lia].
Qed.

Lemma sound_inv_submit urls url rest st :
  sound_inv urls st -> pending_urls st = url :: rest ->
  sound_inv urls (submit url rest st).
Proof.
  intros (Hf & Hn & Hb & Hd & Hu & Hc & Hs) Hq.
  unfold sound_inv, in_flight in *. simpl. rewrite Hq in Hu.
  split; [apply futures_inv_submit, Hf|].
  rewrite !fmap_app. simpl.
  split.
  { apply NoDup_app. split; [exact Hn|]. split; [|apply NoDup_singleton].
    intros f Hin Hnew. apply list_elem_of_singleton in Hnew. subst f.
    apply Hb in Hin. simpl in Hin. lia. }
  split.
  { intros f Hin. rewrite length_app. simpl.
    apply elem_of_app in Hin as [Hin|Hin].
    - apply Hb in Hin. lia.
    - apply list_elem_of_singleton in Hin. subst f. simpl. lia. }
  split; [exact Hd|].
  split; [|auto].
  intros u Hin. apply Hu. set_solver.
Qed.

Lemma sound_inv_drain_one lib output_dir max_attempts urls fw st st' :
  sound_inv urls st ->
  drain_one lib output_dir max_attempts fw st = Ret st' ->
  sound_inv urls st'.
Proof.
  destruct fw as [future w].
  intros (Hf & Hn & Hb & Hd & Hu & Hc & Hs) Hdrain.
  split; [eapply futures_inv_drain_one; eauto|].
  apply drain_one_Ret in Hdrain
    as (success & error & url & futs & _ & Hpop & Hcase).
  pose proof (pop_in_flight _ _ _ _ Hpop) as Hfl.
  pose proof (pop_Permutation _ _ _ _ Hpop) as Hperm.
  assert (Hkeys : (future_to_url st).*1 ≡ₚ future :: futs.*1)
    by (rewrite Hperm; reflexivity).
  rewrite Hkeys in Hn. apply NoDup_cons in Hn as [_ Hn].
  assert (Hb' : forall f, f ∈ futs.*1 -> (fid f < length (submitted st))%nat).
  { intros f Hin. apply Hb. rewrite Hkeys. right. exact Hin. }
  assert (Hurl : url ∈ urls).
  { apply Hu. apply elem_of_app. right. apply elem_of_app. left.
    rewrite Hfl. left. }
  assert (Hu' : forall u,
    u ∈ (pending_urls st ++ futs.*2 ++ failed_forever_urls st ++ submitted st)%list ->
    u ∈ urls).
  { intros u Hin. apply Hu.
    rewrite !elem_of_app in Hin. rewrite !elem_of_app, Hfl. set_solver. }
  destruct Hcase as [[_ ->]|[(_ & a & _ & _ & _ & ->)|(_ & -> & _)]];
    unfold in_flight in *; simpl.
  - repeat split; try assumption. lia.
  - split; [exact Hn|]. split; [exact Hb'|].
    split.
    { intros u Hin. destruct (decide (url = u)) as [->|Hne].
      - rewrite lookup_insert_eq. eauto.
      - rewrite lookup_insert_ne by exact Hne. apply Hd, Hin. }
    split; [|auto].
    intros u Hin. rewrite !elem_of_app in Hin.
    destruct Hin as [[Hin|Hin]|Hin].
    + apply Hu'. set_solver.
    + apply list_elem_of_singleton in Hin. subst u. exact Hurl.
    + apply Hu'. rewrite !elem_of_app. tauto.
  - split; [exact Hn|]. split; [exact Hb'|]. split; [exact Hd|].
    split.
    { intros u Hin. rewrite !elem_of_app in Hin.
      destruct Hin as [Hin|[Hin|[[Hin|Hin]|Hin]]].
      - apply Hu'. set_solver.
      - apply Hu'. set_solver.
      - apply Hu'. set_solver.
      - apply list_elem_of_singleton in Hin. subst u. exact Hurl.
      - apply Hu'. set_solver. }
    split; [|exact Hs].
    rewrite length_app. simpl. lia.
Qed.

Lemma sound_inv_iterate lib output_dir max_attempts env urls n st :
  iterate lib output_dir max_attempts env n 0 (init urls) = Ret st ->
  sound_inv urls st.
Proof.
  apply (iterate_preserves lib output_dir max_attempts env (sound_inv urls)).
  - apply sound_inv_submit.
  - intros fw s s' Hs _. apply sound_inv_drain_one, Hs.
  - intros s Hs. exact Hs.
  - apply sound_inv_init.
Qed.

Lemma counters_inv_iterate lib output_dir max_attempts env urls n st :
  iterate lib output_dir max_attempts env n 0 (init urls) = Ret st ->
  counters_inv st /\ total_urls st = Z.of_nat (length urls).
Proof.
  apply (iterate_preserves lib output_dir max_attempts env
           (fun st => counters_inv st /\ total_urls st = Z.of_nat (length urls))).
  - intros url rest s [Hc Ht] Hq. split; [|exact Ht].
    apply counters_inv_submit; assumption.
  - intros [f w] s s' [Hc Ht] _ Hd. split.
    + eapply counters_inv_drain_one; eauto.
    + apply drain_one_Ret in Hd as (? & ? & ? & ? & _ & _ & Hcase).
      destruct Hcase as [[_ ->]|[(_ & a & _ & _ & _ & ->)|(_ & -> & _)]];
        exact Ht.
  - intros s [Hc Ht]. split; [|exact Ht]. apply counters_inv_print, Hc.
  - split; [apply counters_inv_init|reflexivity].
Qed.

(** X1: at the head of the loop after any number of iterations, the count
    of failures is the length of the list of failures, the count of
    successes is not negative, and every URL in the queue, in flight, in
    the list of failures or in the log of submissions is an input URL; when
    the loop has ended, the successes are the input URLs that are not in
    the list of failures, by number. *)
Theorem bookkeeping_is_sound
  (lib : UrlChecks) (output_dir : string) (max_attempts : Z)
  (env : nat -> nat -> option World) (urls : list string) (n : nat) (st : State) :
  iterate lib output_dir max_attempts env n 0 (init urls) = Ret st ->
  fail_count st = Z.of_nat (length (failed_forever_urls st))
  /\ (0 <= success_count st)%Z
  /\ (forall u, u ∈ pending_urls st \/ u ∈ in_flight st
                \/ u ∈ failed_forever_urls st \/ u ∈ submitted st -> u ∈ urls)
  /\ (loop_cond st = false ->
      (success_count st + Z.of_nat (length (failed_forever_urls st))
       = Z.of_nat (length urls))%Z).
Proof.
  intros Hit.
  pose proof (sound_inv_iterate _ _ _ _ _ _ _ Hit)
    as (_ & _ & _ & _ & Hu & Hc & Hs).
  pose proof (counters_inv_iterate _ _ _ _ _ _ _ Hit) as [(Hr & Hb & _) Ht].
  split; [exact Hc|]. split; [exact Hs|]. split.
  - intros u Hin. apply Hu. rewrite !elem_of_app. tauto.
  - intros Hend. unfold loop_cond in Hend.
    apply orb_false_elim in Hend as [Hc1 Hc2].
    apply negb_false_iff, bool_decide_eq_true in Hc1, Hc2.
    rewrite Hc1, Hc2 in Hr. simpl in Hr. lia.
Qed.

Lemma bookkeeping_is_sound_witness :
  let st := {| success_count := 1; fail_count := 1; total_urls := 2;
               remaining_urls := 0; pending_urls := [];
               failed_forever_urls := ["http://b/2"]; future_to_url := [];
               url_to_attempts := url_to_attempts (init ["http://a/1"; "http://b/2"]);
               submitted := ["http://a/1"; "http://b/2"];
               printed := [(1, 2, 0, 1)%Z] |} in
  fail_count st = Z.of_nat (length (failed_forever_urls st)).
Proof.
  intros st.
  refine (proj1 (bookkeeping_is_sound lib0 "out" 5
    (fun _ f => Some (world_status (if Nat.eqb f 0 then 200 else 404)))
    ["http://a/1"; "http://b/2"] 3 st _)).
  vm_compute. reflexivity.
Defined.

(** * The exceptions of the loop *)

Lemma pop_present future url d :
  (future, url) ∈ d -> exists url' d', pop future d = Ret (url', d').
Proof.
  induction d as [|[f u] d IH]; intros Hin; [inversion Hin|]. simpl.
  destruct (decide (f = future)) as [->|Hne]; [eauto|].
  apply elem_of_cons in Hin as [Heq|Hin]; [congruence|].
  destruct (IH Hin) as (url' & d' & ->). simpl. eauto.
Qed.

Section Raised.

Variable lib : UrlChecks.
Variable output_dir : string.
Variable max_attempts : Z.
Variable env : nat -> nat -> option World.

(** A future that is in the dictionary, mapped to a URL that has its
    attempt count, is drained without exception unless its fetch raised. *)
Lemma drain_one_raise_source future w st e :
  future ∈ (future_to_url st).*1 ->
  (forall u, u ∈ in_flight st -> is_Some (url_to_attempts st !! u)) ->
  drain_one lib output_dir max_attempts (future, w) st = Raise e ->
  future_result lib output_dir future w = Raise e.
Proof.
  intros Hkey Hdom. unfold drain_one.
  destruct (future_result lib output_dir future w) as [[success error]|e'] eqn:Er;
    simpl; [|congruence].
  apply list_elem_of_fmap in Hkey as [[f url] [Heq Hin]].
  simpl in Heq. subst f.
  destruct (pop_present future url _ Hin) as (url' & futs & Hpop).
  rewrite Hpop. simpl.
  destruct success; [discriminate|].
  destruct (retry_test_on_fetch_result lib output_dir future w error Er)
    as (msg & -> & ->). simpl.
  destruct (_ || _); [|discriminate].
  assert (Hsome : is_Some (url_to_attempts st !! url')).
  { apply Hdom. rewrite (pop_in_flight _ _ _ _ Hpop). left. }
  destruct Hsome as [a Ha]. unfold attempts_of. rewrite Ha. simpl.
  destruct (_ <? _)%Z; discriminate.
Qed.

Lemma drain_raise_source done st e :
  NoDup done.*1 ->
  (forall f, f ∈ done.*1 -> f ∈ (future_to_url st).*1) ->
  (forall u, u ∈ in_flight st -> is_Some (url_to_attempts st !! u)) ->
  drain lib output_dir max_attempts done st = Raise e ->
  exists f w, (f, w) ∈ done /\ future_result lib output_dir f w = Raise e.
Proof.
  revert st. induction done as [|[future w] done IH];
    intros st Hn Hkeys Hdom; cbn [drain]; [discriminate|].
  simpl in Hn. apply NoDup_cons in Hn as [Hfresh Hn].
  destruct (drain_one lib output_dir max_attempts (future, w) st) as [st'|e'] eqn:E;
    simpl.
  - intros Hr.
    apply drain_one_Ret in E
      as (success & error & url & futs & _ & Hpop & Hcase).
    pose proof (pop_in_flight _ _ _ _ Hpop) as Hfl.
    pose proof (pop_Permutation _ _ _ _ Hpop) as Hperm.
    assert (Hkeys' : forall f, f ∈ done.*1 -> f ∈ futs.*1).
    { intros f Hin.
      assert (Hf : f ∈ (future_to_url st).*1) by (apply Hkeys; right; exact Hin).
      rewrite Hperm in Hf. simpl in Hf.
      apply elem_of_cons in Hf as [->|Hf]; [contradiction|exact Hf]. }
    assert (Hsub : forall u, u ∈ futs.*2 -> u ∈ in_flight st)
      by (intros u Hu; rewrite Hfl; right; exact Hu).
    assert (Hk1 : forall f, f ∈ done.*1 -> f ∈ (future_to_url st').*1).
    { destruct Hcase as [[_ ->]|[(_ & a & _ & _ & _ & ->)|(_ & -> & _)]];
        exact Hkeys'. }
    assert (Hd1 : forall u, u ∈ in_flight st' -> is_Some (url_to_attempts st' !! u)).
    { destruct Hcase as [[_ ->]|[(_ & a & _ & _ & _ & ->)|(_ & -> & _)]];
        unfold in_flight; simpl; intros u Hu.
      - apply Hdom, Hsub, Hu.
      - destruct (decide (url = u)) as [->|Hne].
        + rewrite lookup_insert_eq. eauto.
        + rewrite lookup_insert_ne by exact Hne. apply Hdom, Hsub, Hu.
      - apply Hdom, Hsub, Hu. }
    destruct (IH st' Hn Hk1 Hd1 Hr) as (f & w' & Hin & Hres).
    exists f, w'. split; [right; exact Hin|exact Hres].
  - intros Hr; inversion Hr; subst e'.
    exists future, w. split; [left|].
    eapply drain_one_raise_source; eauto. apply Hkeys. left.
Qed.

Lemma done_futures_keys t st :
  (done_futures env t st).*1 `sublist_of` (future_to_url st).*1.
Proof.
  unfold done_futures.
  induction (future_to_url st) as [|[f url] d IH]; simpl; [constructor|].
  destruct (env t (fid f)); simpl.
  - apply sublist_skip, IH.
  - apply sublist_cons, IH.
Qed.

(** From a sound state, an iteration raises only the exception that
    [urlparse] raises on an input URL. *)
Lemma loop_body_raise_source urls t st e :
  sound_inv urls st ->
  loop_body lib output_dir max_attempts env t st = Raise e ->
  exists u, u ∈ urls /\ Url.urlparse lib u = Raise e.
Proof.
  intros Hs Hb. unfold loop_body in Hb.
  set (st0 := submit_all (pending_urls st) st) in *.
  assert (Hs0 : sound_inv urls st0).
  { apply (submit_all_preserves (sound_inv urls)); [|reflexivity|exact Hs].
    intros url rest s. apply sound_inv_submit. }
  destruct Hs0 as (Hf & Hn & _ & Hd & Hu & _).
  destruct (drain lib output_dir max_attempts (done_futures env t st0) st0)
    as [st1|e'] eqn:E; simpl in Hb; [discriminate|].
  inversion Hb; subst e'.
  pose proof (done_futures_keys t st0) as Hsub.
  apply drain_raise_source in E as (f & w & Hin & Hres).
  - assert (Hkey : f ∈ (future_to_url st0).*1).
    { eapply sublist_submseteq, elem_of_submseteq in Hsub; [exact Hsub|].
      apply list_elem_of_fmap. exists (f, w). auto. }
    apply list_elem_of_fmap in Hkey as [[f' url] [Hf' Hentry]].
    simpl in Hf'. subst f'.
    unfold futures_inv in Hf. rewrite Forall_forall in Hf.
    pose proof (Hf _ Hentry) as Harg. simpl in Harg.
    exists url. split.
    + apply Hu. apply elem_of_app. right. apply elem_of_app. left.
      unfold in_flight. apply list_elem_of_fmap. exists (f, url). auto.
    + unfold future_result in Hres. rewrite Harg in Hres.
      apply download_image_raises_iff in Hres. exact Hres.
  - eapply sublist_NoDup; eauto.
  - intros f Hin. eapply sublist_submseteq, elem_of_submseteq in Hsub; eauto.
  - intros u Hin. apply Hd, Hu. rewrite !elem_of_app. tauto.
Qed.

Lemma run_loop_raise_source urls fuel t st e :
  sound_inv urls st ->
  run_loop lib output_dir max_attempts env fuel t st = Some (Raise e) ->
  exists u, u ∈ urls /\ Url.urlparse lib u = Raise e.
Proof.
  revert t st. induction fuel as [|fuel IH]; intros t st Hs; simpl.
  - destruct (loop_cond st); discriminate.
  - destruct (loop_cond st); [|discriminate].
    destruct (loop_body lib output_dir max_attempts env t st) as [st'|e'] eqn:Eb.
    + apply IH.
      apply (loop_body_preserves lib output_dir max_attempts env (sound_inv urls))
        with (t := t) (st := st); auto.
      * intros url rest s. apply sound_inv_submit.
      * intros fw s s' Hs' _. apply sound_inv_drain_one, Hs'.
    + intros Hr; inversion Hr; subst e'.
      eapply loop_body_raise_source; eauto.
Qed.

End Raised.

(** X2: [_download_images] raises nothing of its own. When it raises, the
    pool refused [max_workers] (zero or negative), or the exception is the
    one [urlparse] raises on one of the input URLs, re-raised by
    [future.result()]; the dictionary lookups of lines 75, 86 and 88 never
    fail. *)
Theorem download_images_raises_only_what_a_fetch_raises
  (lib : UrlChecks) (output_dir : string) (max_attempts max_workers : Z)
  (env : nat -> nat -> option World) (fuel : nat) (urls : list string) (e : PyExc) :
  _download_images lib output_dir max_attempts max_workers env fuel urls
    = Some (Raise e) ->
  ((max_workers <= 0)%Z /\ e = ValueError "max_workers must be greater than 0")
  \/ exists u, u ∈ urls /\ Url.urlparse lib u = Raise e.
Proof.
  unfold _download_images, ThreadPoolExecutor, Pool.create.
  destruct (Z.leb_spec max_workers 0) as [Hle|Hgt]; simpl.
  - intros Hr; inversion Hr; subst. left. auto.
  - destruct (run_loop lib output_dir max_attempts env fuel 0 (init urls))
      as [[st|e']|] eqn:Er; [discriminate| |discriminate].
    intros Hr; inversion Hr; subst e'. right.
    eapply run_loop_raise_source; [apply sound_inv_init|exact Er].
Qed.

Lemma download_images_raises_only_what_a_fetch_raises_witness :
  ((8 <= 0)%Z /\ ValueError "Invalid IPv6 URL"
                 = ValueError "max_workers must be greater than 0")
  \/ exists u, u ∈ ["http://a/1"; "http://["]
               /\ Url.urlparse lib0 u = Raise (ValueError "Invalid IPv6 URL").
Proof.
  apply (download_images_raises_only_what_a_fetch_raises lib0 "out" 5 8
           (fun _ _ => Some (world_status 200)) 1 ["http://a/1"; "http://["]).
  vm_compute. reflexivity.
Defined.

(** X3: when [urlparse] accepts every input URL, [max_workers] is
    positive and every dispatched fetch eventually completes,
    [_download_images] returns: it yields a list of failed URLs, all of
    them input URLs, and raises nothing. *)
Theorem download_images_returns_when_urls_parse
  (lib : UrlChecks) (output_dir : string) (max_attempts max_workers : Z)
  (env : nat -> nat -> option World) (urls : list string) :
  (forall u, u ∈ urls -> exists parsed_url, Url.urlparse lib u = Ret parsed_url) ->
  (0 < max_workers)%Z ->
  every_fetch_completes env ->
  exists fuel failed,
    _download_images lib output_dir max_attempts max_workers env fuel urls
      = Some (Ret failed)
    /\ forall u, u ∈ failed -> u ∈ urls.
Proof.
  intros Hparse Hpos Hfair.
  destruct (loop_halts lib output_dir max_attempts env Hfair 0 (init urls))
    as (fuel & r & Hr).
  exists fuel. unfold _download_images, ThreadPoolExecutor, Pool.create.
  destruct (Z.leb_spec max_workers 0) as [Hle|_]; [lia|]. simpl.
  rewrite Hr. destruct r as [st|e].
  - exists (failed_forever_urls st). split; [reflexivity|].
    apply (run_loop_preserves lib output_dir max_attempts env (sound_inv urls))
      in Hr as [(_ & _ & _ & _ & Hu & _) _].
    + intros u Hin. apply Hu. rewrite !elem_of_app. tauto.
    + intros url rest s. apply sound_inv_submit.
    + intros fw s s' Hs _. apply sound_inv_drain_one, Hs.
    + auto.
    + apply sound_inv_init.
  - exfalso.
    apply run_loop_raise_source with (urls := urls) in Hr as (u & Hu & Hraise);
      [|apply sound_inv_init].
    destruct (Hparse u Hu) as [p Hp]. congruence.
Qed.

Lemma download_images_returns_when_urls_parse_witness :
  exists fuel failed,
    _download_images lib0 "out" 2 8 (fun _ _ => Some (world_status 500)) fuel
      ["http://a/1"; "http://b/2"] = Some (Ret failed)
    /\ forall u, u ∈ failed -> u ∈ ["http://a/1"; "http://b/2"].
Proof.
  apply (download_images_returns_when_urls_parse lib0 "out" 2 8
           (fun _ _ => Some (world_status 500)) ["http://a/1"; "http://b/2"]).
  - intros u Hu.
    apply elem_of_cons in Hu as [->|Hu]; [eexists; vm_compute; reflexivity|].
    apply list_elem_of_singleton in Hu as ->. eexists; vm_compute; reflexivity.
  - lia.
  - intros f t. exists t. split; [lia|discriminate].
Defined.

(** * Progress only advances *)

Lemma later_refl st : later st st.
Proof. unfold later. repeat split; reflexivity. Qed.

Lemma later_submit st0 url rest st :
  later st0 st -> later st0 (submit url rest st).
Proof.
  unfold later. intros (H1 & H2 & H3 & H4 & H5 & H6 & H7). simpl.
  repeat split; try assumption.
  etransitivity; [exact H6|]. apply prefix_app_r. reflexivity.
Qed.

Lemma later_drain_one lib output_dir max_attempts st0 fw st st' :
  later st0 st ->
  drain_one lib output_dir max_attempts fw st = Ret st' ->
  later st0 st'.
Proof.
  destruct fw as [future w].
  unfold later. intros (H1 & H2 & H3 & H4 & H5 & H6 & H7) Hd.
  apply drain_one_Ret in Hd as (? & ? & url & futs & _ & _ & Hcase).
  destruct Hcase as [[_ ->]|[(_ & a & _ & _ & _ & ->)|(_ & -> & _)]];
    simpl; repeat split; try assumption; try lia.
  etransitivity; [exact H5|]. apply prefix_app_r. reflexivity.
Qed.

Lemma later_print st0 st : later st0 st -> later st0 (print_progress st).
Proof.
  unfold later. intros (H1 & H2 & H3 & H4 & H5 & H6 & H7). simpl.
  repeat split; try assumption.
  etransitivity; [exact H7|]. apply prefix_app_r. reflexivity.
Qed.

Lemma later_iterate lib output_dir max_attempts env n t st st' :
  iterate lib output_dir max_attempts env n t st = Ret st' -> later st st'.
Proof.
  apply (iterate_preserves lib output_dir max_attempts env (later st)).
  - intros url rest s Hs _. apply later_submit, Hs.
  - intros fw s s' Hs _. apply later_drain_one, Hs.
  - apply later_print.
  - apply later_refl.
Qed.

(** X4: progress never goes back. From any state of the loop and after any
    number of further iterations, the counts of successes and of failures
    have not decreased, the count of remaining URLs has not increased, the
    total is unchanged, and the list of failures, the log of submissions
    and the progress lines printed have only been appended to. *)
Theorem progress_never_goes_back
  (lib : UrlChecks) (output_dir : string) (max_attempts : Z)
  (env : nat -> nat -> option World) (n t : nat) (st st' : State) :
  iterate lib output_dir max_attempts env n t st = Ret st' ->
  (success_count st <= success_count st')%Z
  /\ (fail_count st <= fail_count st')%Z
  /\ (remaining_urls st' <= remaining_urls st)%Z
  /\ total_urls st' = total_urls st
  /\ failed_forever_urls st `prefix_of` failed_forever_urls st'
  /\ submitted st `prefix_of` submitted st'
  /\ printed st `prefix_of` printed st'.
Proof.
  intros Hit.
  destruct (later_iterate lib output_dir max_attempts env n t st st' Hit)
    as (Hs & Hf & Hr & Ht & Hfailed & Hsubmitted & Hprinted).
  repeat split; assumption.
Qed.

Lemma progress_never_goes_back_witness :
  let st' := {| success_count := 1; fail_count := 1; total_urls := 2;
                remaining_urls := 0; pending_urls := [];
                failed_forever_urls := ["http://b/2"]; future_to_url := [];
                url_to_attempts := url_to_attempts (init ["http://a/1"; "http://b/2"]);
                submitted := ["http://a/1"; "http://b/2"];
                printed := [(1, 2, 0, 1)%Z] |} in
  (remaining_urls st' <= 2)%Z.
Proof.
  intros st'.
  refine (proj1 (proj2 (proj2 (progress_never_goes_back lib0 "out" 5
    (fun _ f => Some (world_status (if Nat.eqb f 0 then 200 else 404)))
    2 0 (init ["http://a/1"; "http://b/2"]) st' _)))).
  vm_compute. reflexivity.
Defined.

Lemma submit_all_submitted pending st :
  pending_urls st = pending ->
  submitted (submit_all pending st) = (submitted st ++ pending)%list.
Proof.
  revert st. induction pending as [|url rest IH]; intros st Hq; simpl.
  - rewrite app_nil_r. reflexivity.
  - rewrite (IH (submit url rest st) eq_refl). simpl.
    rewrite <- app_assoc. reflexivity.
Qed.

Lemma drain_submitted lib output_dir max_attempts done st st' :
  drain lib output_dir max_attempts done st = Ret st' ->
  submitted st' = submitted st.
Proof.
  revert st. induction done as [|fw done IH]; intros st; cbn [drain].
  - intros Hr; inversion Hr; reflexivity.
  - destruct (drain_one lib output_dir max_attempts fw st) as [st1|] eqn:E;
      simpl; [|discriminate].
    intros Hr. rewrite (IH _ Hr).
    destruct fw as [future w].
    apply drain_one_Ret in E as (? & ? & url & futs & _ & _ & Hcase).
    destruct Hcase as [[_ ->]|[(_ & a & _ & _ & _ & ->)|(_ & -> & _)]];
      reflexivity.
Qed.

(** X5: the first round of fetches is submitted in the order of the input
    list: after one iteration or more, the log of submissions begins with
    the input list, and any retry comes after. *)
Theorem first_round_in_input_order
  (lib : UrlChecks) (output_dir : string) (max_attempts : Z)
  (env : nat -> nat -> option World) (urls : list string) (n : nat) (st : State) :
  iterate lib output_dir max_attempts env (S n) 0 (init urls) = Ret st ->
  urls `prefix_of` submitted st.
Proof.
  cbn [iterate].
  destruct (loop_cond (init urls)) eqn:Hc.
  - destruct (loop_body lib output_dir max_attempts env 0 (init urls))
      as [st1|] eqn:Hb; simpl; [|discriminate].
    intros Hit. apply later_iterate in Hit as (_ & _ & _ & _ & _ & Hsub & _).
    etransitivity; [|exact Hsub].
    unfold loop_body in Hb.
    destruct (drain _ _ _ _ _) as [st2|] eqn:Hd; simpl in Hb; [|discriminate].
    inversion Hb; subst st1. simpl.
    rewrite (drain_submitted _ _ _ _ _ _ Hd).
    rewrite submit_all_submitted by reflexivity. simpl. reflexivity.
  - intros Hr; inversion Hr; subst st.
    unfold loop_cond in Hc. apply orb_false_elim in Hc as [Hc _].
    apply negb_false_iff, bool_decide_eq_true in Hc. simpl in Hc. subst urls.
    apply prefix_nil.
Qed.

Lemma first_round_in_input_order_witness :
  ["http://a/1"; "http://b/2"]
    `prefix_of` ["http://a/1"; "http://b/2"; "http://a/1"; "http://b/2"].
Proof.
  refine (first_round_in_input_order lib0 "out" 2
    (fun _ _ => Some (world_status 503)) ["http://a/1"; "http://b/2"] 1
    {| success_count := 0; fail_count := 2; total_urls := 2;
       remaining_urls := 0; pending_urls := [];
       failed_forever_urls := ["http://a/1"; "http://b/2"]; future_to_url := [];
       url_to_attempts := <["http://b/2" := 2%Z]> (<["http://a/1" := 2%Z]>
                            (url_to_attempts (init ["http://a/1"; "http://b/2"])));
       submitted := ["http://a/1"; "http://b/2"; "http://a/1"; "http://b/2"];
       printed := [(0, 2, 2, 0); (0, 2, 0, 2)]%Z |} _).
  vm_compute. reflexivity.
Defined.


(** * The number of fetches of a URL *)

Section Counted.

Variable lib : UrlChecks.
Variable output_dir : string.
Variable max_attempts : Z.
Variable env : nat -> nat -> option World.
Variable u : string.

Local Abbreviation CInv :=
  (fun st => distinct_inv st /\ counted_inv max_attempts u st).

Lemma counted_init urls : NoDup urls -> u ∈ urls -> CInv (init urls).
Proof.
  intros Hn Hin. split; [apply distinct_inv_init, Hn|].
  exists 1%Z. split; [apply init_attempts, Hin|]. split; [lia|].
  split; [left; reflexivity|]. left. split; [exact Hin|reflexivity].
Qed.

Lemma counted_submit url rest st :
  CInv st -> pending_urls st = url :: rest -> CInv (submit url rest st).
Proof.
  intros (Hd & a & Ha & H1 & Hcap & Hwhere) Hq.
  split; [apply distinct_inv_submit; assumption|].
  exists a. split; [exact Ha|]. split; [exact H1|]. split; [exact Hcap|].
  rewrite attempts_made_submit.
  unfold distinct_inv in Hd. rewrite Hq in Hd.
  simpl in Hd. apply NoDup_cons in Hd as [Hhead Hd].
  unfold in_flight in *. simpl. rewrite fmap_app. simpl.
  destruct (String.eqb_spec u url) as [->|Hne].
  - destruct Hwhere as [[_ Hm]|[[Hin _]|(Hout & _)]].
    + right; left. split; [set_solver|lia].
    + exfalso. apply Hhead. set_solver.
    + exfalso. apply Hout. rewrite Hq. left.
  - rewrite Hq in Hwhere.
    destruct Hwhere as [[Hin Hm]|[[Hin Hm]|(Hp & Hf & Hm)]].
    + left. split; [set_solver|lia].
    + right; left. split; [set_solver|lia].
    + right; right. split; [set_solver|]. split; [set_solver|lia].
Qed.

Lemma counted_drain_one fw st st' :
  CInv st ->
  drain_one lib output_dir max_attempts fw st = Ret st' -> CInv st'.
Proof.
  destruct fw as [future w].
  intros (Hd & a & Ha & H1 & Hcap & Hwhere) Hdrain.
  split; [eapply distinct_inv_drain_one; eauto|].
  apply drain_one_Ret in Hdrain
    as (success & error & url & futs & _ & Hpop & Hcase).
  pose proof (pop_in_flight _ _ _ _ Hpop) as Hfl.
  unfold distinct_inv in Hd. rewrite Hfl in Hd.
  assert (Hmem : u ∈ in_flight st <-> u ∈ url :: futs.*2)
    by (rewrite Hfl; reflexivity).
  assert (Hperm : (pending_urls st ++ (url :: futs.*2) ++ failed_forever_urls st)%list
                  ≡ₚ url :: (pending_urls st ++ futs.*2 ++ failed_forever_urls st)%list)
    by solve_Permutation.
  rewrite Hperm in Hd. apply NoDup_cons in Hd as [Hfresh Hd].
  destruct (decide (url = u)) as [->|Hne].
  - destruct Hwhere as [[Hin _]|[[_ Hm]|(_ & Hout & _)]];
      [exfalso; apply Hfresh; set_solver|
      |exfalso; apply Hout, Hmem; left].
    assert (Hp : u ∉ pending_urls st) by (intros Hp; apply Hfresh; set_solver).
    assert (Hf : u ∉ futs.*2) by (intros Hf; apply Hfresh; set_solver).
    destruct Hcase as [[_ ->]|[(_ & a' & _ & Ha' & Hlt & ->)|(_ & -> & _)]];
      unfold attempts_made, in_flight in *; simpl.
    + exists a. split; [exact Ha|]. split; [exact H1|]. split; [exact Hcap|].
      right; right. auto.
    + rewrite Ha in Ha'. inversion Ha'; subst a'.
      exists (a + 1)%Z. split; [apply lookup_insert_eq|].
      split; [lia|]. split.
      { right. clear -Hlt. lia. }
      left. split; [set_solver|]. unfold attempts_made. simpl. clear -Hm. lia.
    + exists a. split; [exact Ha|]. split; [exact H1|]. split; [exact Hcap|].
      right; right. auto.
  - assert (Hwhere' :
      (u ∈ pending_urls st /\ attempts_made u st = (a - 1)%Z)
      \/ (u ∈ futs.*2 /\ attempts_made u st = a)
      \/ ((u ∉ pending_urls st) /\ (u ∉ futs.*2) /\ attempts_made u st = a)).
    { destruct Hwhere as [Hw|[[Hin Hm]|(Hp & Hf & Hm)]]; [auto| |].
      - right; left. split; [|exact Hm]. apply Hmem in Hin. set_solver.
      - right; right. split; [exact Hp|]. split; [|exact Hm].
        intros Hin. apply Hf, Hmem. right. exact Hin. }
    destruct Hcase as [[_ ->]|[(_ & a' & _ & _ & _ & ->)|(_ & -> & _)]];
      exists a; unfold attempts_made, in_flight in *; simpl.
    + split; [exact Ha|]. split; [exact H1|]. split; [exact Hcap|]. exact Hwhere'.
    + split; [rewrite lookup_insert_ne by exact Hne; exact Ha|].
      split; [exact H1|]. split; [exact Hcap|].
      destruct Hwhere' as [[Hin Hm]|[Hw|(Hp & Hf & Hm)]]; [|auto|].
      * left. split; [set_solver|exact Hm].
      * right; right. split; [set_solver|]. auto.
    + split; [exact Ha|]. split; [exact H1|]. split; [exact Hcap|]. exact Hwhere'.
Qed.

Lemma counted_iterate urls n st :
  NoDup urls -> u ∈ urls ->
  iterate lib output_dir max_attempts env n 0 (init urls) = Ret st ->
  CInv st.
Proof.
  intros Hn Hin.
  apply (iterate_preserves lib output_dir max_attempts env
           (fun st => distinct_inv st /\ counted_inv max_attempts u st)).
  - apply counted_submit.
  - intros fw s s' Hs _. apply counted_drain_one, Hs.
  - intros s Hs. exact Hs.
  - apply counted_init; assumption.
Qed.

End Counted.

(** X6: with an input list without duplicates, every input URL has had at
    most [max_attempts] fetches submitted, and at most one when
    [max_attempts] is below 1, at the head of the loop after any number of
    iterations; when the loop has ended it has had at least one, and its
    entry in [url_to_attempts] is the number of its fetches. *)
Theorem fetches_of_a_url_are_capped
  (lib : UrlChecks) (output_dir : string) (max_attempts : Z)
  (env : nat -> nat -> option World) (urls : list string) (u : string)
  (n : nat) (st : State) :
  NoDup urls ->
  u ∈ urls ->
  iterate lib output_dir max_attempts env n 0 (init urls) = Ret st ->
  (attempts_made u st <= Z.max 1 max_attempts)%Z
  /\ (loop_cond st = false ->
      (1 <= attempts_made u st)%Z
      /\ url_to_attempts st !! u = Some (attempts_made u st)).
Proof.
  intros Hn Hin Hit.
  destruct (counted_iterate lib output_dir max_attempts env u urls n st Hn Hin Hit)
    as (_ & a & Ha & H1 & Hcap & Hwhere).
  split.
  - destruct Hcap; destruct Hwhere as [[_ Hm]|[[_ Hm]|(_ & _ & Hm)]]; lia.
  - intros Hc. unfold loop_cond in Hc. apply orb_false_elim in Hc as [Hc1 Hc2].
    apply negb_false_iff, bool_decide_eq_true in Hc1, Hc2.
    unfold in_flight in Hwhere. rewrite Hc1, Hc2 in Hwhere.
    destruct Hwhere as [[Hp _]|[[Hp _]|(_ & _ & Hm)]];
      [inversion Hp|inversion Hp|].
    rewrite Hm. split; [lia|exact Ha].
Qed.

Lemma fetches_of_a_url_are_capped_witness :
  let st := {| success_count := 0; fail_count := 1; total_urls := 1;
               remaining_urls := 0; pending_urls := [];
               failed_forever_urls := ["http://a/1"]; future_to_url := [];
               url_to_attempts := <["http://a/1" := 3%Z]> ∅;
               submitted := ["http://a/1"; "http://a/1"; "http://a/1"];
               printed := [(0, 1, 1, 0); (0, 1, 1, 0); (0, 1, 0, 1)]%Z |} in
  (attempts_made "http://a/1" st <= Z.max 1 3)%Z.
Proof.
  intros st.
  refine (proj1 (fetches_of_a_url_are_capped lib0 "out" 3
           (fun _ _ => Some (world_status 503)) ["http://a/1"] "http://a/1" 5 st
           _ _ _)).
  - apply (bool_decide_unpack _). vm_compute. reflexivity.
  - apply (bool_decide_unpack _). vm_compute. reflexivity.
  - vm_compute. reflexivity.
Defined.

(** ** URLs that are fetched once *)

Section Single.

Variable lib : UrlChecks.
Variable output_dir : string.
Variable max_attempts : Z.
Variable env : nat -> nat -> option World.
Variable u : string.

(** What the drained future returned is what a fetch of the URL it is
    mapped to returns in a world found in [env]. *)
Lemma drained_result fw st st' :
  futures_inv st -> polled env fw ->
  drain_one lib output_dir max_attempts fw st = Ret st' ->
  exists success error url futs t f,
    env t f = Some fw.2
    /\ returned (download_image lib url output_dir fw.2) = Ret (success, error)
    /\ pop fw.1 (future_to_url st) = Ret (url, futs)
    /\ ((success = true /\ st' = on_success futs st)
        \/ (success = false /\ retry_test error = Ret true
            /\ exists a, st' = on_retry url a futs st)
        \/ (success = false /\ st' = on_failure url futs st)).
Proof.
  destruct fw as [future w]. intros Hf [t Hpoll] Hd. simpl in Hpoll.
  apply drain_one_Ret in Hd
    as (success & error & url & futs & Hres & Hpop & Hcase).
  exists success, error, url, futs, t, (fid future). simpl.
  split; [exact Hpoll|].
  destruct (pop_elem_of _ _ _ _ Hpop) as [Hentry _].
  unfold futures_inv in Hf. rewrite Forall_forall in Hf.
  specialize (Hf _ Hentry). simpl in Hf.
  unfold future_result in Hres. rewrite Hf in Hres.
  split; [exact Hres|]. split; [exact Hpop|].
  destruct Hcase as [[-> ->]|[(-> & a & Ht & _ & _ & ->)|(-> & -> & _)]]; eauto 8.
Qed.

Lemma single_iterate urls n st :
  never_retried lib output_dir env u ->
  u ∈ urls ->
  iterate lib output_dir max_attempts env n 0 (init urls) = Ret st ->
  url_to_attempts st !! u = Some 1%Z.
Proof.
  intros Hnr Hin Hit.
  apply (iterate_preserves lib output_dir max_attempts env
           (fun st => futures_inv st /\ url_to_attempts st !! u = Some 1%Z))
    in Hit as [_ Ha]; [exact Ha| | | |].
  - intros url rest s [Hf Ha] _. split; [apply futures_inv_submit, Hf|exact Ha].
  - intros fw s s' [Hf Ha] Hp Hd.
    split; [eapply futures_inv_drain_one; eauto|].
    apply drained_result in Hd
      as (success & error & url & futs & t & f & Hw & Hres & _ & Hcase);
      [|exact Hf|exact Hp].
    destruct Hcase as [[_ ->]|[(-> & Ht & a & ->)|(_ & ->)]]; simpl;
      [exact Ha| |exact Ha].
    destruct (decide (url = u)) as [->|Hne].
    + destruct (Hnr t f _ _ _ Hw Hres) as [Hs|Hs]; congruence.
    + rewrite lookup_insert_ne by exact Hne. exact Ha.
  - auto.
  - split; [constructor|apply init_attempts, Hin].
Qed.

Lemma never_failed_iterate urls n st :
  always_succeeds lib output_dir env u ->
  iterate lib output_dir max_attempts env n 0 (init urls) = Ret st ->
  u ∉ failed_forever_urls st.
Proof.
  intros Hok Hit.
  apply (iterate_preserves lib output_dir max_attempts env
           (fun st => futures_inv st /\ u ∉ failed_forever_urls st))
    in Hit as [_ Hout]; [exact Hout| | | |].
  - intros url rest s [Hf Hout] _. split; [apply futures_inv_submit, Hf|exact Hout].
  - intros fw s s' [Hf Hout] Hp Hd.
    split; [eapply futures_inv_drain_one; eauto|].
    apply drained_result in Hd
      as (success & error & url & futs & t & f & Hw & Hres & _ & Hcase);
      [|exact Hf|exact Hp].
    destruct Hcase as [[_ ->]|[(_ & _ & a & ->)|(-> & ->)]]; simpl;
      [exact Hout|exact Hout|].
    intros Hin. apply elem_of_app in Hin as [Hin|Hin]; [contradiction|].
    apply list_elem_of_singleton in Hin. subst url.
    rewrite (Hok t f _ Hw) in Hres. discriminate.
  - auto.
  - split; [constructor|]. simpl. intros Hin. inversion Hin.
Qed.

Lemma never_succeeded_iterate urls n st :
  always_fails_for_good lib output_dir env u ->
  u ∈ urls ->
  iterate lib output_dir max_attempts env n 0 (init urls) = Ret st ->
  u ∈ (pending_urls st ++ in_flight st ++ failed_forever_urls st)%list.
Proof.
  intros Hko Hin Hit.
  apply (iterate_preserves lib output_dir max_attempts env
           (fun st => futures_inv st
                      /\ u ∈ (pending_urls st ++ in_flight st
                                ++ failed_forever_urls st)%list))
    in Hit as [_ Hu]; [exact Hu| | | |].
  - intros url rest s [Hf Hu] Hq. split; [apply futures_inv_submit, Hf|].
    rewrite Hq in Hu. unfold in_flight in *. simpl. rewrite fmap_app. simpl.
    set_solver.
  - intros fw s s' [Hf Hu] Hp Hd.
    split; [eapply futures_inv_drain_one; eauto|].
    apply drained_result in Hd
      as (success & error & url & futs & t & f & Hw & Hres & Hpop & Hcase);
      [|exact Hf|exact Hp].
    rewrite (pop_in_flight _ _ _ _ Hpop) in Hu.
    destruct Hcase as [[-> ->]|[(_ & _ & a & ->)|(_ & ->)]];
      unfold in_flight; simpl.
    + destruct (decide (url = u)) as [->|Hne].
      * destruct (Hko t f _ Hw) as (err & Herr & _). congruence.
      * set_solver.
    + set_solver.
    + set_solver.
  - auto.
  - split; [constructor|]. unfold in_flight. simpl. set_solver.
Qed.

End Single.

Lemma always_succeeds_never_retried lib output_dir env u :
  always_succeeds lib output_dir env u -> never_retried lib output_dir env u.
Proof.
  intros Hok t f w success error Hw Hres.
  rewrite (Hok t f w Hw) in Hres. inversion Hres; subst. left. reflexivity.
Qed.

Lemma always_fails_for_good_never_retried lib output_dir env u :
  always_fails_for_good lib output_dir env u -> never_retried lib output_dir env u.
Proof.
  intros Hko t f w success error Hw Hres.
  destruct (Hko t f w Hw) as (err & Herr & Ht).
  rewrite Herr in Hres. inversion Hres; subst. right. exact Ht.
Qed.

(** X7: a URL all of whose fetches succeed is never in the list of
    permanent failures; when the input list has no duplicate and the loop
    has ended, it has been fetched exactly once. *)
Theorem successful_url_is_fetched_once_and_never_failed
  (lib : UrlChecks) (output_dir : string) (max_attempts : Z)
  (env : nat -> nat -> option World) (urls : list string) (u : string)
  (n : nat) (st : State) :
  always_succeeds lib output_dir env u ->
  iterate lib output_dir max_attempts env n 0 (init urls) = Ret st ->
  (u ∉ failed_forever_urls st)
  /\ (NoDup urls -> u ∈ urls -> loop_cond st = false ->
      attempts_made u st = 1%Z).
Proof.
  intros Hok Hit. split.
  - eapply never_failed_iterate; eauto.
  - intros Hn Hin Hc.
    pose proof (single_iterate lib output_dir max_attempts env u urls n st
                  (always_succeeds_never_retried _ _ _ _ Hok) Hin Hit) as H1.
    destruct (counted_iterate lib output_dir max_attempts env u urls n st Hn Hin Hit)
      as (_ & a & Ha & _ & _ & Hwhere).
    rewrite H1 in Ha. inversion Ha; subst a.
    unfold loop_cond in Hc. apply orb_false_elim in Hc as [Hc1 Hc2].
    apply negb_false_iff, bool_decide_eq_true in Hc1, Hc2.
    unfold in_flight in Hwhere. rewrite Hc1, Hc2 in Hwhere.
    destruct Hwhere as [[Hp _]|[[Hp _]|(_ & _ & Hm)]];
      [inversion Hp|inversion Hp|exact Hm].
Qed.

Lemma successful_url_is_fetched_once_and_never_failed_witness :
  "http://a/1" ∉ ["http://b/2"].
Proof.
  refine (proj1 (successful_url_is_fetched_once_and_never_failed lib0 "out" 5
    (fun _ _ => Some {| requests_get := fun url =>
                          if String.eqb url "http://a/1"
                          then Responded 200 "payload" else Responded 404 "";
                        write_bytes := fun _ _ => None |})
    ["http://a/1"; "http://b/2"] "http://a/1" 3
    {| success_count := 1; fail_count := 1; total_urls := 2;
       remaining_urls := 0; pending_urls := [];
       failed_forever_urls := ["http://b/2"]; future_to_url := [];
       url_to_attempts := url_to_attempts (init ["http://a/1"; "http://b/2"]);
       submitted := ["http://a/1"; "http://b/2"];
       printed := [(1, 2, 0, 1)%Z] |} _ _)).
  - intros t f w Hw. inversion Hw; subst w. reflexivity.
  - vm_compute. reflexivity.
Defined.

(** X8: a URL all of whose fetches fail with an error that the loop does
    not retry (a status 404, say) is fetched exactly once, whatever
    [max_attempts], and is in the list of permanent failures when the loop
    has ended, the input list having no duplicate. *)
Theorem unretryable_url_is_fetched_once
  (lib : UrlChecks) (output_dir : string) (max_attempts : Z)
  (env : nat -> nat -> option World) (urls : list string) (u : string)
  (n : nat) (st : State) :
  NoDup urls ->
  u ∈ urls ->
  always_fails_for_good lib output_dir env u ->
  iterate lib output_dir max_attempts env n 0 (init urls) = Ret st ->
  (attempts_made u st <= 1)%Z
  /\ (loop_cond st = false ->
      attempts_made u st = 1%Z /\ u ∈ failed_forever_urls st).
Proof.
  intros Hn Hin Hko Hit.
  pose proof (single_iterate lib output_dir max_attempts env u urls n st
                (always_fails_for_good_never_retried _ _ _ _ Hko) Hin Hit) as H1.
  pose proof (never_succeeded_iterate lib output_dir max_attempts env u urls n st
                Hko Hin Hit) as Hu.
  destruct (counted_iterate lib output_dir max_attempts env u urls n st Hn Hin Hit)
    as (_ & a & Ha & _ & _ & Hwhere).
  rewrite H1 in Ha. inversion Ha; subst a. split.
  - destruct Hwhere as [[_ Hm]|[[_ Hm]|(_ & _ & Hm)]]; lia.
  - intros Hc. unfold loop_cond in Hc. apply orb_false_elim in Hc as [Hc1 Hc2].
    apply negb_false_iff, bool_decide_eq_true in Hc1, Hc2.
    unfold in_flight in Hwhere, Hu. rewrite Hc1, Hc2 in Hwhere, Hu.
    simpl in Hu. split; [|exact Hu].
    destruct Hwhere as [[Hp _]|[[Hp _]|(_ & _ & Hm)]];
      [inversion Hp|inversion Hp|exact Hm].
Qed.

Lemma unretryable_url_is_fetched_once_witness :
  let st := {| success_count := 0; fail_count := 1; total_urls := 1;
               remaining_urls := 0; pending_urls := [];
               failed_forever_urls := ["http://a/1"]; future_to_url := [];
               url_to_attempts := url_to_attempts (init ["http://a/1"]);
               submitted := ["http://a/1"];
               printed := [(0, 1, 0, 1)%Z] |} in
  (attempts_made "http://a/1" st <= 1)%Z.
Proof.
  intros st.
  refine (proj1 (unretryable_url_is_fetched_once lib0 "out" 5
           (fun _ _ => Some (world_status 404)) ["http://a/1"] "http://a/1" 2 st
           _ _ _ _)).
  - apply (bool_decide_unpack _). vm_compute. reflexivity.
  - apply (bool_decide_unpack _). vm_compute. reflexivity.
  - intros t f w Hw. inversion Hw; subst w.
    exists "HTTP 404". split; vm_compute; reflexivity.
  - vm_compute. reflexivity.
Defined.


(** * More on the fetcher *)

(** ** Characters kept by the string operations *)

Section Chars.

Variable q : ascii -> bool.

Lemma forallb_app s1 s2 :
  Str.forallb q (s1 ++ s2) = Str.forallb q s1 && Str.forallb q s2.
Proof.
  induction s1 as [|a s1 IH]; simpl; [reflexivity|].
  rewrite IH. apply andb_assoc.
Qed.

Lemma forallb_dropwhile p s :
  Str.forallb q s = true -> Str.forallb q (Str.dropwhile p s) = true.
Proof.
  induction s as [|a s IH]; simpl; [auto|].
  intros Hs. apply andb_true_iff in Hs as [Ha Hs].
  destruct (p a); [auto|]. simpl. rewrite Ha, Hs. reflexivity.
Qed.

Lemma forallb_filter p s :
  Str.forallb q s = true -> Str.forallb q (Str.filter p s) = true.
Proof.
  induction s as [|a s IH]; simpl; [auto|].
  intros Hs. apply andb_true_iff in Hs as [Ha Hs].
  destruct (p a); [|auto]. simpl. rewrite Ha. auto.
Qed.

Lemma forallb_tail s :
  Str.forallb q s = true -> Str.forallb q (Str.tail s) = true.
Proof.
  destruct s as [|a s]; simpl; [auto|].
  intros Hs. apply andb_true_iff in Hs as [_ Hs]. exact Hs.
Qed.

Lemma forallb_break p s :
  Str.forallb q s = true ->
  Str.forallb q (Str.break p s).1 = true /\ Str.forallb q (Str.break p s).2 = true.
Proof.
  induction s as [|a s IH]; simpl; [auto|].
  intros Hs. pose proof Hs as Hs'. apply andb_true_iff in Hs as [Ha Hs].
  destruct (p a); simpl; [auto|].
  destruct (Str.break p s) as [x y]. simpl in *.
  destruct (IH Hs) as [Hx Hy]. rewrite Ha, Hx. auto.
Qed.

Lemma forallb_partition c s :
  Str.forallb q s = true ->
  Str.forallb q (Str.partition c s).1.1 = true
  /\ Str.forallb q (Str.partition c s).2 = true.
Proof.
  intros Hs. unfold Str.partition.
  destruct (forallb_break (Ascii.eqb c) s Hs) as [Hx Hy].
  destruct (Str.break (Ascii.eqb c) s) as [x y]. simpl in *.
  destruct y as [|b y]; simpl; [auto|].
  apply andb_true_iff in Hy as [_ Hy]. auto.
Qed.

Lemma forallb_split_scheme s :
  Str.forallb q s = true -> Str.forallb q (Url.split_scheme s).2 = true.
Proof.
  intros Hs. unfold Url.split_scheme.
  pose proof (forallb_partition Url.colon s Hs) as [_ Hy].
  destruct (Str.partition Url.colon s) as [[before found] after]. simpl in Hy.
  destruct found; [|exact Hs].
  destruct before as [|a before]; [exact Hs|].
  destruct (_ && _); [exact Hy|exact Hs].
Qed.

Lemma forallb_weaken (q' : ascii -> bool) s :
  (forall a, q a = true -> q' a = true) ->
  Str.forallb q s = true -> Str.forallb q' s = true.
Proof.
  intros Hq. induction s as [|a s IH]; simpl; [auto|].
  intros Hs. apply andb_true_iff in Hs as [Ha Hs].
  rewrite (Hq a Ha). auto.
Qed.

Lemma forallb_not_contains c s :
  q c = false -> Str.forallb q s = true -> Str.contains c s = false.
Proof.
  intros Hc. induction s as [|a s IH]; simpl; [auto|].
  intros Hs. apply andb_true_iff in Hs as [Ha Hs].
  destruct (Ascii.eqb_spec a c) as [->|_]; [congruence|auto].
Qed.

End Chars.

Lemma filter_id p s : Str.forallb p s = true -> Str.filter p s = s.
Proof.
  induction s as [|a s IH]; simpl; [auto|].
  intros Hs. apply andb_true_iff in Hs as [Ha Hs].
  rewrite Ha, (IH Hs). reflexivity.
Qed.

Lemma partition_absent c s :
  Str.contains c s = false -> Str.partition c s = (s, false, EmptyString).
Proof.
  unfold Str.partition.
  assert (Hb : Str.contains c s = false ->
               Str.break (Ascii.eqb c) s = (s, EmptyString)).
  { induction s as [|a s IH]; simpl; [auto|].
    rewrite (Ascii.eqb_sym c a).
    destruct (Ascii.eqb a c); [discriminate|].
    intros Hs. rewrite (IH Hs). reflexivity. }
  intros Hs. rewrite (Hb Hs). reflexivity.
Qed.

(** The netloc and the rest that [urlsplit] makes of what follows the two
    slashes, when it has no bracket and is ASCII. *)
Lemma urlsplit_unbracketed lib url :
  Str.forallb unbracketed url = true ->
  exists parts, Url.urlsplit lib url = Ret parts.
Proof.
  intros Hu. unfold Url.urlsplit.
  apply (forallb_dropwhile _ Url.c0_control_or_space) in Hu.
  apply (forallb_filter _ (fun a => negb (Url.unsafe_byte a))) in Hu.
  apply forallb_split_scheme in Hu.
  destruct (Url.split_scheme _) as [sch url']. simpl in Hu.
  assert (Hnl : forall nl, Str.forallb unbracketed nl = true ->
            Str.contains Url.lbracket nl = false
            /\ Str.contains Url.rbracket nl = false
            /\ Url.checknetloc lib nl = Ret tt).
  { intros nl Hn. split; [|split].
    - eapply forallb_not_contains; [|exact Hn]. reflexivity.
    - eapply forallb_not_contains; [|exact Hn]. reflexivity.
    - unfold Url.checknetloc.
      rewrite (forallb_weaken unbracketed Str.is_ascii nl); [|
        intros a Ha; unfold unbracketed in Ha;
        apply andb_true_iff in Ha as [Ha _];
        apply andb_true_iff in Ha as [Ha _]; exact Ha | exact Hn].
      rewrite orb_true_r. reflexivity. }
  destruct (Str.startswith "//" url').
  - unfold Url.splitnetloc.
    apply forallb_tail, forallb_tail in Hu.
    apply (forallb_break _ Url.is_netloc_delim) in Hu as [Hn _].
    destruct (Str.break Url.is_netloc_delim (Str.tail (Str.tail url')))
      as [nl rest]. simpl in Hn.
    destruct (Hnl nl Hn) as (Hl & Hr & Hc). rewrite Hl, Hr. simpl.
    destruct (Str.partition Url.hash rest) as [[? ?] ?].
    destruct (Str.partition Url.qmark _) as [[? ?] ?].
    rewrite Hc. simpl. eauto.
  - simpl.
    destruct (Str.partition Url.hash url') as [[? ?] ?].
    destruct (Str.partition Url.qmark _) as [[? ?] ?].
    unfold Url.checknetloc. simpl. eauto.
Qed.

Lemma urlparse_unbracketed lib url :
  Str.forallb unbracketed url = true ->
  exists parsed_url, Url.urlparse lib url = Ret parsed_url.
Proof.
  intros Hu. unfold Url.urlparse.
  destruct (urlsplit_unbracketed lib url Hu) as [[[[[sch nl] p] qr] f] ->].
  simpl. destruct (_ && _); [destruct (Url.splitparams p)|]; eauto.
Qed.

(** X9: on a URL made of ASCII characters other than the square brackets,
    [download_image] raises nothing, whatever the network and the file
    system do and whatever the library checks: it returns [(True, None)] or
    [(False, message)]. *)
Theorem download_image_returns_on_unbracketed_url
  (lib : UrlChecks) (url output_dir : string) (w : World) :
  Str.forallb unbracketed url = true ->
  returned (download_image lib url output_dir w) = Ret (true, None)
  \/ exists message,
       returned (download_image lib url output_dir w) = Ret (false, Some message).
Proof.
  intros Hu. destruct (urlparse_unbracketed lib url Hu) as [p Hp].
  destruct (returned (download_image lib url output_dir w))
    as [[success error]|e] eqn:Er.
  - apply download_image_returned_shape in Er as [[-> ->]|[-> [msg ->]]]; eauto.
  - apply download_image_raises_iff in Er. congruence.
Qed.

Lemma download_image_returns_on_unbracketed_url_witness :
  returned (download_image lib0 "http://example.com/a.png" "out"
              (world_raises "boom")) = Ret (true, None)
  \/ exists message,
       returned (download_image lib0 "http://example.com/a.png" "out"
                   (world_raises "boom")) = Ret (false, Some message).
Proof.
  apply (download_image_returns_on_unbracketed_url lib0
           "http://example.com/a.png" "out" (world_raises "boom")).
  vm_compute. reflexivity.
Defined.

(** ** The file and its name *)

Lemma path_name_not_dot (p : string) : path_name p <> ".".
Proof.
  unfold path_name.
  set (keep := fun x : string => negb (Str.is_empty x) && negb (String.eqb x ".")).
  set (l := List.filter keep (Str.split Url.slash p)).
  assert (Hl : forall x, x ∈ l -> keep x = true).
  { intros x Hx. apply list_elem_of_In, List.filter_In in Hx as [_ Hx]. exact Hx. }
  clearbody l. induction l as [|x l IH]; [discriminate|].
  destruct l as [|y l].
  - simpl. intros ->. specialize (Hl "." ltac:(left)). discriminate.
  - change (List.last (x :: y :: l) EmptyString) with (List.last (y :: l) EmptyString).
    apply IH. intros z Hz. apply Hl. right. exact Hz.
Qed.

Lemma append_nonempty (s1 s2 : string) : s2 <> EmptyString -> s1 ++ s2 <> EmptyString.
Proof. destruct s1; simpl; [auto|discriminate]. Qed.

Lemma filename_of_shape parsed_url :
  filename_of parsed_url <> EmptyString /\ filename_of parsed_url <> ".".
Proof.
  unfold filename_of.
  destruct (path_name (path parsed_url)) as [|a s] eqn:E; simpl.
  - split; [apply append_nonempty; discriminate|].
    destruct (netloc parsed_url) as [|b [|c n]]; simpl; discriminate.
  - split; [discriminate|]. rewrite <- E. apply path_name_not_dot.
Qed.

(** X10: a call of [download_image] writes a file exactly when it returns
    success. It then writes one file, with the payload of the response of
    status 200, as an entry of the storage directory: the name is not
    empty, is not [.] and has no [/]. A call that fails or raises writes
    nothing. *)
Theorem fetch_writes_one_file_exactly_on_success
  (lib : UrlChecks) (url output_dir : string) (w : World) :
  let f := download_image lib url output_dir w in
  (returned f = Ret (true, None) ->
   exists filename content,
     written f = [({| parent := output_dir; name := filename |}, content)]
     /\ requests_get w url = Responded 200 content
     /\ filename <> EmptyString /\ filename <> "."
     /\ Str.contains Url.slash filename = false)
  /\ (returned f <> Ret (true, None) -> written f = []).
Proof.
  intros f. subst f.
  pose proof (download_image_written lib url output_dir w) as Hw.
  destruct (returned (download_image lib url output_dir w))
    as [[[|] error]|e] eqn:Er.
  - destruct Hw as (p & content & Hp & Hg & Hw).
    split; [|intros Hne; exfalso; apply Hne;
              apply download_image_returned_shape in Er as [[_ ->]|[? _]];
              [reflexivity|discriminate]].
    intros _. exists (filename_of p), content.
    destruct (filename_of_shape p) as [H1 H2].
    repeat split; try assumption.
    eapply filename_no_slash; eauto.
  - split; [discriminate|auto].
  - split; [discriminate|auto].
Qed.

Lemma fetch_writes_one_file_exactly_on_success_witness :
  exists filename content,
    written (download_image lib0 "http://example.com/a.png" "out" (world_status 200))
      = [({| parent := "out"; name := filename |}, content)]
    /\ requests_get (world_status 200) "http://example.com/a.png"
       = Responded 200 content
    /\ filename <> EmptyString /\ filename <> "."
    /\ Str.contains Url.slash filename = false.
Proof.
  apply (proj1 (fetch_writes_one_file_exactly_on_success lib0
                  "http://example.com/a.png" "out" (world_status 200))).
  reflexivity.
Defined.

(** X11: when the exchange completes with a three-digit status other than
    200, the fetch fails with the message [HTTP] followed by the status,
    and the test of the loop finds it retryable exactly when the status is
    408, 429 or between 500 and 599. *)
Theorem failed_status_is_retried_by_its_code
  (lib : UrlChecks) (url output_dir : string) (w : World)
  (parsed_url : ParseResult) (c : Z) (content : string) :
  Url.urlparse lib url = Ret parsed_url ->
  requests_get w url = Responded c content ->
  (100 <= c <= 999)%Z ->
  c <> 200%Z ->
  returned (download_image lib url output_dir w)
    = Ret (false, Some ("HTTP " ++ Str.of_Z c))
  /\ retry_test (Some ("HTTP " ++ Str.of_Z c))
     = Ret (bool_decide ((500 <= c <= 599)%Z \/ c = 408%Z \/ c = 429%Z)).
Proof.
  intros Hp Hg Hc Hne. split.
  - rewrite (download_image_cases lib url output_dir w parsed_url Hp).
    cbv zeta. rewrite Hg.
    destruct (Z.eqb_spec c 200); [contradiction|reflexivity].
  - change ("HTTP " ++ Str.of_Z c) with (error_of (HttpStatus c)).
    rewrite (retry_test_http_status c Hc). f_equal.
    unfold retryable_status.
    destruct (Z.leb_spec 500 c), (Z.leb_spec c 599), (Z.eqb_spec c 408),
      (Z.eqb_spec c 429); simpl; symmetry;
      first [apply bool_decide_eq_true; lia | apply bool_decide_eq_false; lia].
Qed.

Lemma failed_status_is_retried_by_its_code_witness :
  returned (download_image lib0 "http://example.com/a.png" "out" (world_status 429))
    = Ret (false, Some ("HTTP " ++ Str.of_Z 429))
  /\ retry_test (Some ("HTTP " ++ Str.of_Z 429))
     = Ret (bool_decide ((500 <= 429 <= 599)%Z \/ 429%Z = 408%Z \/ 429%Z = 429%Z)).
Proof.
  apply (failed_status_is_retried_by_its_code lib0 "http://example.com/a.png" "out"
           (world_status 429)
           {| scheme := "http"; netloc := "example.com"; path := "/a.png";
              params := ""; query := ""; fragment := "" |} 429 "payload").
  - reflexivity.
  - reflexivity.
  - lia.
  - lia.
Defined.

(** ** The name under which a well-formed URL is saved *)

Lemma break_app_delim p x c y :
  p c = true ->
  Str.break p (x ++ String c y)
  = ((Str.break p x).1, (Str.break p x).2 ++ String c y).
Proof.
  intros Hc. induction x as [|a x IH]; simpl.
  - rewrite Hc. reflexivity.
  - destruct (p a); [reflexivity|].
    rewrite IH. destruct (Str.break p x) as [x1 x2]. reflexivity.
Qed.

Lemma split_nonempty c s : Str.split c s <> [].
Proof.
  destruct s as [|a s]; simpl; [discriminate|].
  destruct (Ascii.eqb a c); [discriminate|].
  destruct (Str.split c s); discriminate.
Qed.

Lemma split_app_sep c x y :
  Str.split c (x ++ String c y) = (Str.split c x ++ Str.split c y)%list.
Proof.
  induction x as [|a x IH]; simpl.
  - rewrite Ascii.eqb_refl. reflexivity.
  - destruct (Ascii.eqb a c); rewrite IH; [reflexivity|].
    pose proof (split_nonempty c x) as Hne.
    destruct (Str.split c x) as [|z l]; [congruence|reflexivity].
Qed.

Lemma split_without_sep c s : Str.contains c s = false -> Str.split c s = [s].
Proof.
  induction s as [|a s IH]; simpl; [reflexivity|].
  destruct (Ascii.eqb a c); [discriminate|].
  intros Hs. rewrite (IH Hs). reflexivity.
Qed.

Lemma last_filter_snoc {A} (f : A -> bool) (l : list A) (x d : A) :
  f x = true -> List.last (List.filter f (l ++ [x])%list) d = x.
Proof.
  intros Hx. rewrite List.filter_app. simpl. rewrite Hx.
  apply List.last_last.
Qed.

(** The last segment of a path is its name, unless it is empty or [.]. *)
Lemma path_name_last_segment (q segment : string) :
  Str.contains Url.slash segment = false ->
  segment <> EmptyString -> segment <> "." ->
  path_name (q ++ String Url.slash segment) = segment.
Proof.
  intros Hs Hne Hdot. unfold path_name.
  rewrite split_app_sep, (split_without_sep _ _ Hs).
  apply last_filter_snoc.
  destruct (String.eqb_spec segment ".") as [|_]; [congruence|].
  destruct segment; [congruence|reflexivity].
Qed.

Lemma plain_not_slash segment :
  Str.forallb plain segment = true -> Str.contains Url.slash segment = false.
Proof.
  apply forallb_not_contains. reflexivity.
Qed.

Lemma plain_or_slash_not c s :
  plain_or_slash c = false ->
  Str.forallb plain_or_slash s = true -> Str.contains c s = false.
Proof. apply forallb_not_contains. Qed.

Lemma plain_is_plain_or_slash s :
  Str.forallb plain s = true -> Str.forallb plain_or_slash s = true.
Proof.
  apply forallb_weaken. intros a Ha. unfold plain_or_slash. rewrite Ha. reflexivity.
Qed.

Lemma plain_or_slash_kept a :
  plain_or_slash a = true ->
  negb (Url.unsafe_byte a) = true /\ unbracketed a = true.
Proof.
  destruct a as [[] [] [] [] [] [] [] []]; vm_compute; intros H;
    try discriminate; auto.
Qed.

(** What [urlparse] makes of an [http] or [https] URL of plain characters
    that ends with a segment: the netloc runs to the first slash, the path
    is the rest and ends with the segment, and there are no parameters, no
    query and no fragment. *)
Lemma urlparse_plain lib sch body segment :
  sch = "http" \/ sch = "https" ->
  Str.forallb plain_or_slash body = true ->
  Str.forallb plain segment = true ->
  Url.urlparse lib (sch ++ "://" ++ body ++ String Url.slash segment)
  = Ret {| scheme := sch;
           netloc := (Str.break Url.is_netloc_delim body).1;
           path := (Str.break Url.is_netloc_delim body).2 ++ String Url.slash segment;
           params := EmptyString; query := EmptyString; fragment := EmptyString |}.
Proof.
  intros Hsch Hbody Hseg.
  set (r := body ++ String Url.slash segment).
  assert (Hr : Str.forallb plain_or_slash r = true).
  { unfold r. rewrite forallb_app, Hbody. simpl.
    rewrite (plain_is_plain_or_slash _ Hseg). reflexivity. }
  assert (Hkeep : Str.filter (fun a => negb (Url.unsafe_byte a)) r = r).
  { apply filter_id. eapply forallb_weaken; [|exact Hr].
    intros a Ha. apply plain_or_slash_kept, Ha. }
  assert (Hbreak : Str.break Url.is_netloc_delim r
                   = ((Str.break Url.is_netloc_delim body).1,
                      (Str.break Url.is_netloc_delim body).2
                        ++ String Url.slash segment))
    by (apply break_app_delim; reflexivity).
  destruct (forallb_break plain_or_slash Url.is_netloc_delim body Hbody)
    as [Hnl Hq].
  set (nl := (Str.break Url.is_netloc_delim body).1) in *.
  set (q := (Str.break Url.is_netloc_delim body).2) in *.
  assert (Hrest : Str.forallb plain_or_slash (q ++ String Url.slash segment) = true).
  { rewrite forallb_app, Hq. simpl.
    rewrite (plain_is_plain_or_slash _ Hseg). reflexivity. }
  assert (Hl : Str.contains Url.lbracket nl = false)
    by (eapply plain_or_slash_not; [|exact Hnl]; reflexivity).
  assert (Hrb : Str.contains Url.rbracket nl = false)
    by (eapply plain_or_slash_not; [|exact Hnl]; reflexivity).
  assert (Hascii : Str.forallb Str.is_ascii nl = true).
  { eapply forallb_weaken; [|exact Hnl]. intros a Ha.
    apply plain_or_slash_kept in Ha as [_ Ha]. unfold unbracketed in Ha.
    apply andb_true_iff in Ha as [Ha _]. apply andb_true_iff in Ha as [Ha _].
    exact Ha. }
  assert (Hh : Str.partition Url.hash (q ++ String Url.slash segment)
               = (q ++ String Url.slash segment, false, EmptyString))
    by (apply partition_absent; eapply plain_or_slash_not; [|exact Hrest];
        reflexivity).
  assert (Hqm : Str.partition Url.qmark (q ++ String Url.slash segment)
                = (q ++ String Url.slash segment, false, EmptyString))
    by (apply partition_absent; eapply plain_or_slash_not; [|exact Hrest];
        reflexivity).
  assert (Hsemi : Str.contains Url.semi (q ++ String Url.slash segment) = false)
    by (eapply plain_or_slash_not; [|exact Hrest]; reflexivity).
  assert (Hsplit : Url.urlsplit lib (sch ++ "://" ++ r)
                   = Ret (sch, nl, q ++ String Url.slash segment,
                          EmptyString, EmptyString)).
  { unfold Url.urlsplit.
    destruct Hsch as [-> | ->].
    - change (Str.dropwhile Url.c0_control_or_space ("http" ++ "://" ++ r))
        with ("http://" ++ r).
      change (Str.filter (fun a => negb (Url.unsafe_byte a)) ("http://" ++ r))
        with ("http://" ++ Str.filter (fun a => negb (Url.unsafe_byte a)) r).
      rewrite Hkeep.
      change (Url.split_scheme ("http://" ++ r)) with ("http", "//" ++ r).
      cbv iota beta.
      change (Str.startswith "//" ("//" ++ r)) with true. cbv iota.
      change (Url.splitnetloc ("//" ++ r)) with (Str.break Url.is_netloc_delim r).
      rewrite Hbreak. cbv iota beta. rewrite Hl, Hrb. simpl.
      rewrite Hh. cbv iota beta. rewrite Hqm. cbv iota beta.
      unfold Url.checknetloc. rewrite Hascii, orb_true_r. reflexivity.
    - change (Str.dropwhile Url.c0_control_or_space ("https" ++ "://" ++ r))
        with ("https://" ++ r).
      change (Str.filter (fun a => negb (Url.unsafe_byte a)) ("https://" ++ r))
        with ("https://" ++ Str.filter (fun a => negb (Url.unsafe_byte a)) r).
      rewrite Hkeep.
      change (Url.split_scheme ("https://" ++ r)) with ("https", "//" ++ r).
      cbv iota beta.
      change (Str.startswith "//" ("//" ++ r)) with true. cbv iota.
      change (Url.splitnetloc ("//" ++ r)) with (Str.break Url.is_netloc_delim r).
      rewrite Hbreak. cbv iota beta. rewrite Hl, Hrb. simpl.
      rewrite Hh. cbv iota beta. rewrite Hqm. cbv iota beta.
      unfold Url.checknetloc. rewrite Hascii, orb_true_r. reflexivity. }
  unfold Url.urlparse. fold r. rewrite Hsplit. simpl.
  rewrite Hsemi, andb_false_r. reflexivity.
Qed.

(** X12: an [http] or [https] URL of plain characters whose path ends with
    the segment [segment], neither empty nor [.], is saved under that
    segment: when the server answers 200 and the write succeeds,
    [download_image] writes the payload to [output_dir / segment] and
    returns success. *)
Theorem plain_url_is_saved_under_its_last_segment
  (lib : UrlChecks) (sch body segment output_dir content : string) (w : World) :
  sch = "http" \/ sch = "https" ->
  Str.forallb plain_or_slash body = true ->
  Str.forallb plain segment = true ->
  segment <> EmptyString ->
  segment <> "." ->
  let url := sch ++ "://" ++ body ++ String Url.slash segment in
  let filepath := {| parent := output_dir; name := segment |} in
  requests_get w url = Responded 200 content ->
  write_bytes w filepath content = None ->
  download_image lib url output_dir w
  = {| returned := Ret (true, None); written := [(filepath, content)] |}.
Proof.
  intros Hsch Hbody Hseg Hne Hdot url filepath Hget Hwrite.
  pose proof (urlparse_plain lib sch body segment Hsch Hbody Hseg) as Hp.
  fold url in Hp.
  rewrite (download_image_cases lib url output_dir w _ Hp). cbv zeta.
  assert (Hname : filename_of
            {| scheme := sch;
               netloc := (Str.break Url.is_netloc_delim body).1;
               path := (Str.break Url.is_netloc_delim body).2
                         ++ String Url.slash segment;
               params := EmptyString; query := EmptyString;
               fragment := EmptyString |} = segment).
  { unfold filename_of. cbn [path].
    rewrite (path_name_last_segment _ segment (plain_not_slash _ Hseg) Hne Hdot).
    destruct segment; [congruence|reflexivity]. }
  rewrite Hname, Hget. fold filepath. rewrite Hwrite. reflexivity.
Qed.

Lemma plain_url_is_saved_under_its_last_segment_witness :
  download_image lib0 "https://example.com:8080/img/cat.png" "out" (world_status 200)
  = {| returned := Ret (true, None);
       written := [({| parent := "out"; name := "cat.png" |}, "payload")] |}.
Proof.
  apply (plain_url_is_saved_under_its_last_segment lib0 "https"
           "example.com:8080/img" "cat.png" "out" "payload" (world_status 200)).
  - right. reflexivity.
  - vm_compute. reflexivity.
  - vm_compute. reflexivity.
  - discriminate.
  - discriminate.
  - reflexivity.
  - reflexivity.
Defined.

(** * The callers *)

(** ** The list of URLs read from the file *)

Lemma rstrip_idempotent s : Text.rstrip (Text.rstrip s) = Text.rstrip s.
Proof.
  induction s as [|a s IH]; [reflexivity|].
  assert (Hstep : forall x, Text.rstrip (String a x)
            = match Text.rstrip x with
              | EmptyString =>
                  if Text.is_space a then EmptyString else String a EmptyString
              | String b r => String a (String b r)
              end) by reflexivity.
  rewrite (Hstep s).
  destruct (Text.rstrip s) as [|b r] eqn:E.
  - destruct (Text.is_space a) eqn:Ea; [reflexivity|].
    rewrite Hstep. reflexivity.
  - rewrite Hstep, IH. reflexivity.
Qed.

Lemma rstrip_head a s :
  Text.rstrip (String a s) = EmptyString
  \/ exists r, Text.rstrip (String a s) = String a r.
Proof.
  simpl. destruct (Text.rstrip s) as [|b r].
  - destruct (Text.is_space a); eauto.
  - eauto.
Qed.

Lemma lstrip_head s :
  Text.lstrip s = EmptyString
  \/ exists a r, Text.lstrip s = String a r /\ Text.is_space a = false.
Proof.
  unfold Text.lstrip. induction s as [|a s IH]; simpl; [auto|].
  destruct (Text.is_space a) eqn:Ea; [exact IH|]. right. eauto.
Qed.

(** [strip] leaves a stripped string as it is. *)
Lemma strip_idempotent s : Text.strip (Text.strip s) = Text.strip s.
Proof.
  unfold Text.strip.
  destruct (lstrip_head s) as [->|(a & r & -> & Ha)]; [reflexivity|].
  destruct (rstrip_head a r) as [E|[r' E]].
  - rewrite E. reflexivity.
  - rewrite E. unfold Text.lstrip at 1. simpl. rewrite Ha.
    rewrite <- E. apply rstrip_idempotent.
Qed.

Lemma read_urls_NoDup content : NoDup (read_urls content).
Proof. unfold read_urls. apply NoDup_elements. Qed.

Lemma read_urls_members content u :
  u ∈ read_urls content <->
  u <> EmptyString
  /\ exists line, line ∈ Text.splitlines content /\ u = Text.strip line.
Proof.
  unfold read_urls.
  rewrite elem_of_elements, elem_of_difference, elem_of_list_to_set,
    list_elem_of_fmap, elem_of_singleton.
  split; intros [H1 H2]; split; try assumption.
  - destruct H1 as (line & -> & Hl). eauto.
  - destruct H2 as (line & Hl & ->). eauto.
Qed.

(** X13: the list of URLs that [main] makes of the file has no duplicate
    and no empty string; its members are exactly the non-empty strings
    obtained by stripping a line of the file, and each of them is stripped
    of leading and trailing white space. *)
Theorem read_urls_are_the_distinct_stripped_lines (content : string) :
  NoDup (read_urls content)
  /\ (forall u, u ∈ read_urls content <->
        u <> EmptyString
        /\ exists line, line ∈ Text.splitlines content /\ u = Text.strip line)
  /\ (forall u, u ∈ read_urls content -> Text.strip u = u).
Proof.
  split; [apply read_urls_NoDup|]. split; [apply read_urls_members|].
  intros u Hu. apply read_urls_members in Hu as (_ & line & _ & ->).
  apply strip_idempotent.
Qed.

(** ** The report of [main] *)

Lemma download_result_sound lib output_dir max_attempts max_workers env fuel urls failed :
  NoDup urls ->
  _download_images lib output_dir max_attempts max_workers env fuel urls
    = Some (Ret failed) ->
  NoDup failed /\ forall u, u ∈ failed -> u ∈ urls.
Proof.
  intros Hn. unfold _download_images.
  destruct (ThreadPoolExecutor max_workers); [|discriminate].
  destruct (run_loop lib output_dir max_attempts env fuel 0 (init urls))
    as [[st|]|] eqn:Er; [|discriminate|discriminate].
  intros Hr; inversion Hr; subst failed.
  apply (run_loop_preserves lib output_dir max_attempts env
           (fun st => distinct_inv st /\ sound_inv urls st)) in Er
    as [[Hd (_ & _ & _ & _ & Hu & _)] _].
  - split; [apply distinct_inv_failed, Hd|].
    intros u Hin. apply Hu. rewrite !elem_of_app. tauto.
  - intros url rest s [Hd Hs] Hq.
    split; [apply distinct_inv_submit|apply sound_inv_submit]; assumption.
  - intros fw s s' [Hd Hs] _ Hdr.
    split; [eapply distinct_inv_drain_one|eapply sound_inv_drain_one]; eauto.
  - auto.
  - split; [apply distinct_inv_init, Hn|apply sound_inv_init].
Qed.

(** X14: when [main] returns, it has read the file named by [-i] if that
    option is given and by the first argument otherwise, and what it has
    printed ends with the report of a list of failed URLs without
    duplicate, each of them a non-empty stripped line of that file; before
    the report come the notice of the default directory, if neither [-o]
    nor the second argument names one, and the four lines of the
    configuration. *)
Theorem main_reports_distinct_lines_of_the_file
  (lib : UrlChecks) (fs : FileSystem) (env : nat -> nat -> option World)
  (fuel : nat) (url_file output_dir url_file_opt output_dir_opt : option string)
  (max_attempts parallel : Z) (out : list Print) :
  main lib fs env fuel url_file output_dir url_file_opt output_dir_opt
       max_attempts parallel = Some (Ret out) ->
  exists file_name content failed,
    file_name <> EmptyString
    /\ (forall n, truthy url_file_opt = Some n -> file_name = n)
    /\ (truthy url_file_opt = None -> url_file = Some file_name)
    /\ read_text fs file_name = Ret content
    /\ NoDup failed
    /\ (forall u, u ∈ failed ->
          u <> EmptyString
          /\ exists line, line ∈ Text.splitlines content /\ u = Text.strip line)
    /\ out = ((output_dir_name output_dir output_dir_opt).2
              ++ configuration file_name (output_dir_name output_dir output_dir_opt).1
                   max_attempts parallel
              ++ failure_report failed)%list.
Proof.
  unfold main.
  destruct (input_file_name url_file url_file_opt) as [file_name|] eqn:Ei;
    [|discriminate].
  destruct (output_dir_name output_dir output_dir_opt) as [output_name echoed].
  destruct (read_text fs file_name) as [content|] eqn:Er; [|discriminate].
  destruct (download_images lib fs env fuel (read_urls content) output_name
              max_attempts parallel) as [[report|]|] eqn:Ed;
    [|discriminate|discriminate].
  intros Hr; inversion Hr; subst out.
  unfold download_images in Ed.
  destruct (mkdir fs output_name); [discriminate|].
  destruct (_download_images lib output_name max_attempts parallel env fuel
              (read_urls content)) as [[failed|]|] eqn:Ef;
    [|discriminate|discriminate].
  inversion Ed; subst report.
  pose proof (read_urls_NoDup content) as Hn.
  pose proof (read_urls_members content) as Hmem.
  destruct (download_result_sound _ _ _ _ _ _ _ _ Hn Ef) as [Hnf Hsub].
  exists file_name, content, failed.
  assert (Htruthy : forall o n, truthy o = Some n -> o = Some n /\ n <> EmptyString).
  { intros [s|] n; simpl; [|discriminate].
    destruct s; simpl; [discriminate|].
    intros Hs; inversion Hs; subst. split; [reflexivity|discriminate]. }
  unfold input_file_name in Ei.
  destruct (truthy url_file_opt) as [n|] eqn:Eo.
  - inversion Ei; subst n. destruct (Htruthy _ _ Eo) as [_ Hne].
    repeat split; try assumption; try reflexivity.
    + intros n Hn'. congruence.
    + discriminate.
    + apply Hmem, Hsub, H.
    + apply Hmem, Hsub, H.
  - destruct (truthy url_file) as [n|] eqn:Ep; [|discriminate].
    inversion Ei; subst n. destruct (Htruthy _ _ Ep) as [-> Hne].
    repeat split; try assumption; try reflexivity.
    + discriminate.
    + apply Hmem, Hsub, H.
    + apply Hmem, Hsub, H.
Qed.

Lemma main_reports_distinct_lines_of_the_file_witness :
  exists file_name content failed,
    file_name <> EmptyString
    /\ (forall n, truthy (Some "urls.txt") = Some n -> file_name = n)
    /\ (truthy (Some "urls.txt") = None -> Some "ignored.txt" = Some file_name)
    /\ read_text {| read_text := fun _ => Ret "http://a/1"; mkdir := fun _ => None |}
         file_name = Ret content
    /\ NoDup failed
    /\ (forall u, u ∈ failed ->
          u <> EmptyString
          /\ exists line, line ∈ Text.splitlines content /\ u = Text.strip line)
    /\ [ {| args := [" Using default output directory: pardl-downloads"]; sep := " " |};
         {| args := [" URL file: urls.txt"]; sep := " " |};
         {| args := [" Output directory: pardl-downloads"]; sep := " " |};
         {| args := [" Max attempts: 5"]; sep := " " |};
         {| args := [" Parallel downloads: 8" ++ newline]; sep := " " |};
         {| args := [newline]; sep := " " |};
         {| args := [" FAILED TO DOWNLOAD:"]; sep := " " |};
         {| args := [""; "http://a/1"]; sep := newline ++ " " |} ]
       = ((output_dir_name None None).2
          ++ configuration file_name (output_dir_name None None).1 5 8
          ++ failure_report failed)%list.
Proof.
  apply (main_reports_distinct_lines_of_the_file lib0
           {| read_text := fun _ => Ret "http://a/1"; mkdir := fun _ => None |}
           (fun _ _ => Some (world_status 404)) 1
           (Some "ignored.txt") None (Some "urls.txt") None 5 8).
  vm_compute. reflexivity.
Defined.


(** * The number of fetches of a run *)

Lemma spare_retry max_attempts m url a x :
  m !! url = Some a -> (a < max_attempts)%Z ->
  (spare max_attempts (<[url := (a + 1)%Z]> m) x <= spare max_attempts m x)%nat
  /\ S (spare max_attempts (<[url := (a + 1)%Z]> m) url) = spare max_attempts m url.
Proof.
  intros Ha Hlt. unfold spare. split.
  - destruct (decide (url = x)) as [->|Hne].
    + rewrite lookup_insert_eq, Ha. simpl. lia.
    + rewrite lookup_insert_ne by exact Hne. lia.
  - rewrite lookup_insert_eq, Ha. simpl. lia.
Qed.

Lemma fetch_potential_submit max_attempts url rest st :
  pending_urls st = url :: rest ->
  fetch_potential max_attempts (submit url rest st) = fetch_potential max_attempts st.
Proof.
  intros Hq. unfold fetch_potential, in_flight. rewrite Hq.
  cbn [submit submitted pending_urls future_to_url url_to_attempts].
  rewrite length_app, fmap_app, sum_list_with_app.
  cbn [length fmap list_fmap snd sum_list_with]. lia.
Qed.

Lemma fetch_potential_drain_one lib output_dir max_attempts fw st st' :
  drain_one lib output_dir max_attempts fw st = Ret st' ->
  (fetch_potential max_attempts st' <= fetch_potential max_attempts st)%nat.
Proof.
  destruct fw as [future w]. intros Hd.
  apply drain_one_Ret in Hd
    as (success & error & url & futs & _ & Hpop & Hcase).
  pose proof (pop_in_flight _ _ _ _ Hpop) as Hfl.
  unfold fetch_potential. rewrite Hfl.
  destruct Hcase as [[_ ->]|[(_ & a & _ & Ha & Hlt & ->)|(_ & -> & _)]];
    unfold in_flight;
    cbn [on_success on_retry on_failure submitted pending_urls future_to_url
         url_to_attempts];
    rewrite ?sum_list_with_app; cbn [sum_list_with].
  - lia.
  - destruct (spare_retry max_attempts _ url a url Ha Hlt) as [_ Hurl].
    pose proof (sum_list_with_le
      (fun u => S (spare max_attempts (<[url := (a + 1)%Z]> (url_to_attempts st)) u))
      (fun u => S (spare max_attempts (url_to_attempts st) u)) (pending_urls st)
      (fun x => le_n_S _ _ (proj1 (spare_retry max_attempts _ url a x Ha Hlt)))).
    pose proof (sum_list_with_le
      (spare max_attempts (<[url := (a + 1)%Z]> (url_to_attempts st)))
      (spare max_attempts (url_to_attempts st)) (futs.*2)
      (fun x => proj1 (spare_retry max_attempts _ url a x Ha Hlt))).
    lia.
  - lia.
Qed.

Lemma fetch_potential_init max_attempts urls :
  fetch_potential max_attempts (init urls)
  = (length urls * Z.to_nat (Z.max 1 max_attempts))%nat.
Proof.
  unfold fetch_potential, in_flight.
  cbn [init submitted pending_urls future_to_url length fmap list_fmap sum_list_with].
  rewrite Nat.add_0_r. change (0 + ?x)%nat with x.
  assert (Hsum : forall l, (forall u, u ∈ l -> u ∈ urls) ->
            sum_list_with
              (fun u => S (spare max_attempts (url_to_attempts (init urls)) u)) l
            = (length l * Z.to_nat (Z.max 1 max_attempts))%nat).
  { induction l as [|x l IH]; intros Hl; [reflexivity|].
    cbn [sum_list_with length]. rewrite IH by (intros u Hu; apply Hl; right; exact Hu).
    unfold spare. rewrite (init_attempts urls x) by (apply Hl; left).
    simpl. lia. }
  apply Hsum. auto.
Qed.

(** X15: a run submits at most [len(urls)] times [max_attempts] fetches,
    and at most [len(urls)] when [max_attempts] is below 1, duplicates in
    the input list or not: the log of submissions never grows beyond that. *)
Theorem fetches_of_a_run_are_bounded
  (lib : UrlChecks) (output_dir : string) (max_attempts : Z)
  (env : nat -> nat -> option World) (urls : list string) (n : nat) (st : State) :
  iterate lib output_dir max_attempts env n 0 (init urls) = Ret st ->
  (Z.of_nat (length (submitted st))
   <= Z.of_nat (length urls) * Z.max 1 max_attempts)%Z.
Proof.
  intros Hit.
  assert (Hpot : (fetch_potential max_attempts st
                  <= length urls * Z.to_nat (Z.max 1 max_attempts))%nat).
  { revert Hit.
    apply (iterate_preserves lib output_dir max_attempts env
             (fun st => (fetch_potential max_attempts st
                         <= length urls * Z.to_nat (Z.max 1 max_attempts))%nat)).
    - intros url rest s Hs Hq. rewrite fetch_potential_submit by exact Hq. exact Hs.
    - intros fw s s' Hs _ Hd. apply fetch_potential_drain_one in Hd. lia.
    - intros s Hs. exact Hs.
    - rewrite fetch_potential_init. lia. }
  unfold fetch_potential in Hpot.
  assert (Hlen : (length (submitted st)
                  <= length urls * Z.to_nat (Z.max 1 max_attempts))%nat) by lia.
  apply Nat2Z.inj_le in Hlen. rewrite Nat2Z.inj_mul, Z2Nat.id in Hlen by lia.
  exact Hlen.
Qed.

Lemma fetches_of_a_run_are_bounded_witness :
  (Z.of_nat (length ["http://a/1"; "http://a/1"; "http://a/1"])
   <= Z.of_nat (length ["http://a/1"]) * Z.max 1 3)%Z.
Proof.
  refine (fetches_of_a_run_are_bounded lib0 "out" 3
    (fun _ _ => Some (world_status 503)) ["http://a/1"] 5
    {| success_count := 0; fail_count := 1; total_urls := 1;
       remaining_urls := 0; pending_urls := [];
       failed_forever_urls := ["http://a/1"]; future_to_url := [];
       url_to_attempts := <["http://a/1" := 3%Z]> ∅;
       submitted := ["http://a/1"; "http://a/1"; "http://a/1"];
       printed := [(0, 1, 1, 0); (0, 1, 1, 0); (0, 1, 0, 1)]%Z |} _).
  vm_compute. reflexivity.
Defined.
